(** * Email case-variation generator: [src/app/email-case.jsx]

    A shallow embedding of the variation engine of the React component
    (helpers [letterPositions], [flipCases], [sampleUniqueBigInt]; the memoised
    values [customPositions] and [totalPossible]; the handler [generate]) and
    the properties of it that the specification states.

    Conventions of the embedding:
    - a JS string is the list of its UTF-16 code units ([jsstring]);
    - a BigInt is a [Z]; a JS Number is a [jsnumber] (NaN, the infinities, or a
      finite value, kept as a rational: the code only compares quantities,
      tests them for integrality and converts them, it never does arithmetic
      on them);
    - an array index that has passed the range filter is a [nat];
    - anything the host can throw is a [Throw] in [result];
    - [Math.random] is an oracle: the stream of the integers that
      [Math.floor(Math.random() * Number.MAX_SAFE_INTEGER)] evaluates to;
    - the [while] loop of [sampleUniqueBigInt] runs on fuel: [None] means the
      loop is still running when the fuel is gone. *)

From Stdlib Require Import ZArith QArith Lia String Ascii DecimalPos Sorted.
From stdpp Require Import base tactics option list.

Open Scope Z_scope.

(** ** JS values *)

Abbreviation codeunit := Z (only parsing).
Abbreviation jsstring := (list Z) (only parsing).

(** A string literal of this file as a JS string (ASCII literals only). *)
Definition js (s : string) : jsstring :=
  map (fun a => Z.of_N (N_of_ascii a)) (list_ascii_of_string s).

Inductive jsnumber : Type :=
| NaN
| PosInf
| NegInf
| Finite (q : Q).

Inductive jserror : Type :=
| RangeError
| TypeError.

Inductive result (A : Type) : Type :=
| Ok (a : A)
| Throw (e : jserror).
Arguments Ok {A} a.
Arguments Throw {A} e.

Definition bind {A B} (r : result A) (k : A -> result B) : result B :=
  match r with
  | Ok a => k a
  | Throw e => Throw e
  end.

Notation "'try' x <- r ; k" := (bind r (fun x => k))
  (at level 10, x name, r at level 100, k at level 200).

(** [xs.map(f)] for a callback that can throw: the first exception aborts. *)
Fixpoint mapM {A B} (f : A -> result B) (xs : list A) : result (list B) :=
  match xs with
  | [] => Ok []
  | x :: rest =>
      try y <- f x;
      try ys <- mapM f rest;
      Ok (y :: ys)
  end.

(** *** Numbers *)

Definition Number_isFinite (n : jsnumber) : bool :=
  match n with
  | Finite _ => true
  | _ => false
  end.

(** The integer part of a rational, and whether that is all of it. *)
Definition Qfloor (q : Q) : Z := Qnum q / Zpos (Qden q).
Definition Qis_int (q : Q) : bool := Qnum q mod Zpos (Qden q) =? 0.

Definition Number_isInteger (n : jsnumber) : bool :=
  match n with
  | Finite q => Qis_int q
  | _ => false
  end.

(** [a <= b] on Numbers: false as soon as one side is NaN. *)
Definition js_le (a b : jsnumber) : bool :=
  match a, b with
  | NaN, _ | _, NaN => false
  | NegInf, _ => true
  | _, PosInf => true
  | PosInf, _ => false
  | _, NegInf => false
  | Finite x, Finite y => Qle_bool x y
  end.

(** [a < b] on Numbers. *)
Definition js_lt (a b : jsnumber) : bool :=
  match a, b with
  | NaN, _ | _, NaN => false
  | _, _ => negb (js_le b a)
  end.

Definition Math_min (a b : jsnumber) : jsnumber :=
  match a, b with
  | NaN, _ | _, NaN => NaN
  | _, _ => if js_le a b then a else b
  end.

(** [BigInt(n)] throws a RangeError unless [n] is an integer. *)
Definition BigInt_ofNumber (n : jsnumber) : result Z :=
  match n with
  | Finite q => if Qis_int q then Ok (Qfloor q) else Throw RangeError
  | _ => Throw RangeError
  end.

(** [Number(b)] for a BigInt [b]. The code converts only [want] (at most 5000)
    and [upto] (at most 100000), far inside the range where the conversion is
    exact, so the embedding keeps the integer. *)
Definition Number_ofBigInt (b : Z) : Z := b.

(** [BigInt.asUintN(width, b)]. *)
Definition BigInt_asUintN (width : Z) (b : Z) : Z := b mod 2 ^ width.

Definition ofZ (z : Z) : jsnumber := Finite (inject_Z z).

(** ** The host

    [String.prototype.toUpperCase], [toLowerCase] and the string-to-number
    conversion [Number(s)] are the engine's; the code does not define them.
    The development is parametric in them and relies only on what ECMAScript
    fixes for the inputs at hand: ASCII code units, U+00DF (whose upper case is
    the two-unit string SS), and unsigned decimal numerals below 2^53. *)

Definition isLower (c : codeunit) : bool := (97 <=? c) && (c <=? 122).
Definition isUpper (c : codeunit) : bool := (65 <=? c) && (c <=? 90).
Definition isAscii (c : codeunit) : bool := (0 <=? c) && (c <? 128).
Definition isDigit (c : codeunit) : bool := (48 <=? c) && (c <=? 57).

(** Value of a decimal numeral, most significant digit first. *)
Definition decimal (ds : jsstring) : Z :=
  fold_left (fun acc d => 10 * acc + (d - 48)) ds 0.

Class Host : Type := {
  toUpperCase : jsstring -> jsstring;
  toLowerCase : jsstring -> jsstring;
  Number_ofString : jsstring -> jsnumber;
  toUpperCase_lower : forall c, isLower c = true -> toUpperCase [c] = [c - 32];
  toUpperCase_ascii : forall c,
    isAscii c = true -> isLower c = false -> toUpperCase [c] = [c];
  toLowerCase_upper : forall c, isUpper c = true -> toLowerCase [c] = [c + 32];
  toLowerCase_ascii : forall c,
    isAscii c = true -> isUpper c = false -> toLowerCase [c] = [c];
  toUpperCase_sharp_s : toUpperCase [223] = [83; 83];
  Number_ofString_decimal : forall ds,
    ds <> [] -> forallb isDigit ds = true -> decimal ds < 2 ^ 53 ->
    Number_ofString ds = ofZ (decimal ds)
}.

(** A reference host, for evaluating the code on concrete inputs. It is the
    ECMAScript behaviour on ASCII text, on U+00DF and on unsigned decimal
    numerals; it is used on no other input. *)
Module RefHost.

Definition upper1 (c : codeunit) : jsstring :=
  if isLower c then [c - 32]
  else if c =? 223 then [83; 83]
  else [c].

Definition lower1 (c : codeunit) : jsstring :=
  if isUpper c then [c + 32] else [c].

Definition toUpper (s : jsstring) : jsstring := concat (map upper1 s).
Definition toLower (s : jsstring) : jsstring := concat (map lower1 s).

Definition toNumber (s : jsstring) : jsnumber :=
  match s with
  | [] => ofZ 0
  | _ => if forallb isDigit s then ofZ (decimal s) else NaN
  end.

End RefHost.

#[export] Program Instance ref_host : Host := {|
  toUpperCase := RefHost.toUpper;
  toLowerCase := RefHost.toLower;
  Number_ofString := RefHost.toNumber
|}.
Next Obligation.
  intros c Hc. unfold RefHost.toUpper, RefHost.upper1. simpl. by rewrite Hc.
Qed.
Next Obligation.
  intros c Ha Hl. unfold RefHost.toUpper, RefHost.upper1. simpl. rewrite Hl.
  unfold isAscii in Ha. destruct (Z.eqb_spec c 223); [lia | done].
Qed.
Next Obligation.
  intros c Hc. unfold RefHost.toLower, RefHost.lower1. simpl. by rewrite Hc.
Qed.
Next Obligation.
  intros c Ha Hu. unfold RefHost.toLower, RefHost.lower1. simpl. by rewrite Hu.
Qed.
Next Obligation. reflexivity. Qed.
Next Obligation.
  intros ds Hne Hd _. unfold RefHost.toNumber. destruct ds; [done |].
  by rewrite Hd.
Qed.

(** ** Regular expressions

    The fragment of the pattern language that [EMAIL_REGEX] is written in, with
    a matcher by derivatives. [RegExp_test] is [RegExp.prototype.test] for a
    pattern without flags: some substring of the input matches. *)

Inductive regex : Type :=
| Nothing
| Epsilon
| Dot
| AnyUnit
| Chr (c : codeunit)
| Cat (r1 r2 : regex)
| Alt (r1 r2 : regex)
| Star (r : regex).

(** [r+] *)
Definition Plus (r : regex) : regex := Cat r (Star r).

(** [.] matches any code unit but LF, CR, U+2028 and U+2029. *)
Definition isLineTerminator (c : codeunit) : bool :=
  (c =? 10) || (c =? 13) || (c =? 8232) || (c =? 8233).

Fixpoint nullable (r : regex) : bool :=
  match r with
  | Nothing | Dot | AnyUnit | Chr _ => false
  | Epsilon | Star _ => true
  | Cat r1 r2 => nullable r1 && nullable r2
  | Alt r1 r2 => nullable r1 || nullable r2
  end.

Fixpoint deriv (c : codeunit) (r : regex) : regex :=
  match r with
  | Nothing | Epsilon => Nothing
  | Dot => if isLineTerminator c then Nothing else Epsilon
  | AnyUnit => Epsilon
  | Chr d => if c =? d then Epsilon else Nothing
  | Cat r1 r2 =>
      if nullable r1 then Alt (Cat (deriv c r1) r2) (deriv c r2)
      else Cat (deriv c r1) r2
  | Alt r1 r2 => Alt (deriv c r1) (deriv c r2)
  | Star r1 => Cat (deriv c r1) (Star r1)
  end.

Fixpoint matches (r : regex) (s : jsstring) : bool :=
  match s with
  | [] => nullable r
  | c :: rest => matches (deriv c r) rest
  end.

Definition RegExp_test (r : regex) (s : jsstring) : bool :=
  matches (Cat (Star AnyUnit) (Cat r (Star AnyUnit))) s.

(** What a pattern matches, as a relation: the reading the matcher is checked
    against. *)
Inductive lang : regex -> jsstring -> Prop :=
| lang_Epsilon : lang Epsilon []
| lang_Dot c : isLineTerminator c = false -> lang Dot [c]
| lang_AnyUnit c : lang AnyUnit [c]
| lang_Chr c : lang (Chr c) [c]
| lang_Cat r1 r2 s1 s2 :
    lang r1 s1 -> lang r2 s2 -> lang (Cat r1 r2) (s1 ++ s2)
| lang_Alt_l r1 r2 s : lang r1 s -> lang (Alt r1 r2) s
| lang_Alt_r r1 r2 s : lang r2 s -> lang (Alt r1 r2) s
| lang_Star_nil r : lang (Star r) []
| lang_Star_cons r s1 s2 :
    lang r s1 -> lang (Star r) s2 -> lang (Star r) (s1 ++ s2).

(** Units that [.] matches, one or more of them. *)
Definition dots (s : jsstring) : Prop :=
  s <> [] /\ Forall (fun c => isLineTerminator c = false) s.

(** ** Helpers of the component *)

(** [const EMAIL_REGEX = /.+@.+\..+/] *)
Definition EMAIL_REGEX : regex :=
  Cat (Plus Dot) (Cat (Chr 64) (Cat (Plus Dot) (Cat (Chr 46) (Plus Dot)))).

Section Engine.
Context `{H : Host}.

(** [letterPositions(str)]: the loop over [i], with the index it has reached. *)
Definition isLetter (ch : codeunit) : bool :=
  ((65 <=? ch) && (ch <=? 90)) || ((97 <=? ch) && (ch <=? 122)).

Fixpoint letterPositions_from (i : nat) (str : jsstring) : list nat :=
  match str with
  | [] => []
  | ch :: rest =>
      if isLetter ch then i :: letterPositions_from (S i) rest
      else letterPositions_from (S i) rest
  end.

Definition letterPositions (str : jsstring) : list nat :=
  letterPositions_from 0 str.

(** [base.split] on the empty separator, and [arr.join] with it. *)
Definition split_chars (base : jsstring) : list jsstring :=
  map (fun c => [c]) base.

Definition join (arr : list jsstring) : jsstring := concat arr.

(** The body of the [if (on === 1n)] of [flipCases]. *)
Definition toggle (ch : jsstring) : jsstring :=
  if decide (ch = toUpperCase ch) then toLowerCase ch else toUpperCase ch.

(** The [for] loop of [flipCases]: [b] runs over the indices of [positions],
    [positions] being what is left of the array from [b] on. Reading
    [arr[idx]] past the end gives [undefined], and [undefined.toUpperCase()]
    is a TypeError. *)
Fixpoint flipLoop (arr : list jsstring) (positions : list nat) (b : Z)
    (mask : Z) : result (list jsstring) :=
  match positions with
  | [] => Ok arr
  | idx :: rest =>
      let on := Z.land (Z.shiftr mask b) 1 in
      if on =? 1 then
        match arr !! idx with
        | None => Throw TypeError
        | Some ch => flipLoop (<[idx := toggle ch]> arr) rest (b + 1) mask
        end
      else flipLoop arr rest (b + 1) mask
  end.

Definition flipCases (base : jsstring) (positions : list nat) (mask : Z)
    : result jsstring :=
  try arr <- flipLoop (split_chars base) positions 0 mask;
  Ok (join arr).

(** [sampleUniqueBigInt(maxExclusive, k)]. A JS [Set] keeps its members in
    insertion order, and [Array.from(set)] lists them in that order: the set is
    the list of its members, [set.add] appends a new member and leaves the set
    alone when it has the value already (BigInts are compared by value). *)
Definition Set_add (x : Z) (set : list Z) : list Z :=
  if decide (x ∈ set) then set else set ++ [x].

(** The [while] loop, from the [i]-th draw of the oracle on. [%] on BigInts
    truncates towards zero ([Z.rem]) and throws a RangeError on a zero
    divisor. *)
Fixpoint sampleLoop (fuel : nat) (rnd : nat -> Z) (i : nat) (set : list Z)
    (maxExclusive : Z) (k : Z) : option (result (list Z)) :=
  if Z.of_nat (length set) <? k then
    match fuel with
    | O => None
    | S fuel' =>
        let rand := BigInt_asUintN 64 (rnd i) in
        if maxExclusive =? 0 then Some (Throw RangeError)
        else
          let pick := Z.rem rand maxExclusive in
          sampleLoop fuel' rnd (S i) (Set_add pick set) maxExclusive k
    end
  else Some (Ok set).

Definition sampleUniqueBigInt (fuel : nat) (rnd : nat -> Z)
    (maxExclusive : Z) (k : Z) : option (result (list Z)) :=
  sampleLoop fuel rnd 0 [] maxExclusive k.

(** ** The component's state and memoised values *)

Record AppState : Type := {
  email : jsstring;
  qty : jsnumber;
  variations : list jsstring;
  useCustom : bool;
  customIndexes : jsstring
}.

Definition setVariations (st : AppState) (out : list jsstring) : AppState :=
  {| email := email st; qty := qty st; variations := out;
     useCustom := useCustom st; customIndexes := customIndexes st |}.

(** [useState] initial values. *)
Definition initialState : AppState :=
  {| email := js "mondaynightbefore@gmail.com"; qty := ofZ 10;
     variations := []; useCustom := false; customIndexes := [] |}.

Definition allLetterPositions (st : AppState) : list nat :=
  letterPositions (email st).

(** [s.split(/[ ,]+/)]: the pieces between the maximal runs of spaces and
    commas, an empty piece before a leading run and after a trailing one.
    [cur] is the piece being read, last unit first. *)
Definition isSeparator (c : codeunit) : bool := (c =? 32) || (c =? 44).

Fixpoint split_run (s : jsstring) (cur : jsstring) (in_run : bool)
    : list jsstring :=
  match s with
  | [] => [rev cur]
  | c :: rest =>
      if isSeparator c then
        if in_run then split_run rest [] true
        else rev cur :: split_run rest [] true
      else split_run rest (c :: cur) false
  end.

Definition split_separators (s : jsstring) : list jsstring :=
  split_run s [] false.

(** [s.trim()]: white space and line terminators off both ends. *)
Definition isWhiteSpace (c : codeunit) : bool :=
  ((9 <=? c) && (c <=? 13)) || (c =? 32) || (c =? 160) || (c =? 5760)
  || ((8192 <=? c) && (c <=? 8202)) || (c =? 8232) || (c =? 8233)
  || (c =? 8239) || (c =? 8287) || (c =? 12288) || (c =? 65279).

Fixpoint trimStart (s : jsstring) : jsstring :=
  match s with
  | [] => []
  | c :: rest => if isWhiteSpace c then trimStart rest else s
  end.

Definition trim (s : jsstring) : jsstring :=
  rev (trimStart (rev (trimStart s))).

(** [Boolean(s)] for a string. *)
Definition Boolean_ofString (s : jsstring) : bool :=
  match s with
  | [] => false
  | _ => true
  end.

(** A Number that passed the filter of [customPositions], as an index. *)
Definition toIndex (n : jsnumber) : nat :=
  match n with
  | Finite q => Z.to_nat (Qfloor q)
  | _ => O
  end.

Definition customParts (st : AppState) : list jsnumber :=
  filter
    (fun n => Is_true (Number_isInteger n && js_le (ofZ 0) n
                       && js_lt n (ofZ (Z.of_nat (length (email st))))))
    (map Number_ofString
       (filter (fun s => Is_true (Boolean_ofString s))
          (map trim (split_separators (customIndexes st))))).

Definition customPositions (st : AppState) : list nat :=
  if negb (useCustom st) then allLetterPositions st
  else
    let parts := customParts st in
    match parts with
    | [] => allLetterPositions st
    | _ => map toIndex parts
    end.

Definition lettersCount (st : AppState) : nat := length (customPositions st).

(** [1n << BigInt(lettersCount)] *)
Definition totalPossible (st : AppState) : Z :=
  Z.shiftl 1 (Z.of_nat (lettersCount st)).

(** ** [generate] *)

Inductive completion : Type :=
| Returned
| Alerted (msg : string)
| Thrown (e : jserror).

(** [Array.from({ length: upto }, (_, i) => BigInt(i))] *)
Definition Array_from_length (upto : Z) : list Z := seqZ 0 upto.

(** The choice of the masks: [let picks = []; if (max <= 100000n) ... else ...]. *)
Definition maskPicks (fuel : nat) (rnd : nat -> Z) (max want : Z)
    : option (result (list Z)) :=
  if max <=? 100000 then
    let upto := Number_ofBigInt (if max <? want then max else want) in
    Some (Ok (Array_from_length upto))
  else sampleUniqueBigInt fuel rnd max (Number_ofBigInt want).

Definition msg_email : string :=
  "Please enter a valid email (e.g., name@example.com)".
Definition msg_quantity : string := "Quantity must be a positive number".

(** The handler: how it completes and the state it leaves. [None]: the
    sampling loop has not come back within [fuel] draws. *)
Definition generate (fuel : nat) (rnd : nat -> Z) (st : AppState)
    : option (completion * AppState) :=
  if negb (RegExp_test EMAIL_REGEX (email st)) then Some (Alerted msg_email, st)
  else
    let n := qty st in
    if negb (Number_isFinite n) || js_le n (ofZ 0) then
      Some (Alerted msg_quantity, st)
    else
      let max := totalPossible st in
      match BigInt_ofNumber (Math_min n (ofZ 5000)) with
      | Throw e => Some (Thrown e, st)
      | Ok want =>
          match maskPicks fuel rnd max want with
          | None => None
          | Some (Throw e) => Some (Thrown e, st)
          | Some (Ok picks) =>
              let base := email st in
              let pos := customPositions st in
              match mapM (fun mask => flipCases base pos mask) picks with
              | Throw e => Some (Thrown e, st)
              | Ok out => Some (Returned, setVariations st out)
              end
          end
      end.

(** The callback of [picks.map]. *)
Definition render (st : AppState) (mask : Z) : result jsstring :=
  flipCases (email st) (customPositions st) mask.

End Engine.

(** ** The rest of the component *)

(** [BigInt.prototype.toString()]: the decimal digits, most significant
    first, after a minus sign for a negative value. *)
Fixpoint uint_units (d : Decimal.uint) : jsstring :=
  match d with
  | Decimal.Nil => []
  | Decimal.D0 d' => 48 :: uint_units d'
  | Decimal.D1 d' => 49 :: uint_units d'
  | Decimal.D2 d' => 50 :: uint_units d'
  | Decimal.D3 d' => 51 :: uint_units d'
  | Decimal.D4 d' => 52 :: uint_units d'
  | Decimal.D5 d' => 53 :: uint_units d'
  | Decimal.D6 d' => 54 :: uint_units d'
  | Decimal.D7 d' => 55 :: uint_units d'
  | Decimal.D8 d' => 56 :: uint_units d'
  | Decimal.D9 d' => 57 :: uint_units d'
  end.

Definition BigInt_toString (z : Z) : jsstring :=
  match z with
  | Z0 => [48]
  | Zpos p => uint_units (Pos.to_uint p)
  | Zneg p => 45 :: uint_units (Pos.to_uint p)
  end.

(** The pattern of [totalDisplay], [/\B(?=(\d{3})+(?!\d))/g], matches the
    empty string at a position; [prev] is the unit before the position, if
    any, and [rest] the text from the position on.

    [\w] is a letter, a digit or the underscore; [\B] holds where the units
    on the two sides are both word units or both not (no unit counts as not). *)
Definition isWordChar (c : codeunit) : bool :=
  isDigit c || isUpper c || isLower c || (c =? 95).

Definition notWordBoundary (prev : option codeunit) (rest : jsstring) : bool :=
  Bool.eqb
    (match prev with Some c => isWordChar c | None => false end)
    (match rest with c :: _ => isWordChar c | [] => false end).

Definition startsWithDigit (rest : jsstring) : bool :=
  match rest with
  | c :: _ => isDigit c
  | [] => false
  end.

(** The lookahead [(?=(\d{3})+(?!\d))]: one group of three digits, then
    either no digit follows or the groups go on. *)
Fixpoint groupsOfThree (rest : jsstring) : bool :=
  match rest with
  | d1 :: d2 :: d3 :: rest' =>
      isDigit d1 && isDigit d2 && isDigit d3
      && (negb (startsWithDigit rest') || groupsOfThree rest')
  | _ => false
  end.

(** [s.replace(pattern, ",")] with the global flag: a comma goes in at every
    position where the pattern matches; the matches are empty, so every
    position is tried once, left to right. *)
Fixpoint replaceSeparators (prev : option codeunit) (rest : jsstring)
    : jsstring :=
  let here :=
    if notWordBoundary prev rest && groupsOfThree rest then [44] else [] in
  match rest with
  | [] => here
  | c :: rest' => here ++ c :: replaceSeparators (Some c) rest'
  end.

Definition totalDisplay `{H : Host} (st : AppState) : jsstring :=
  let s := BigInt_toString (totalPossible st) in
  replaceSeparators None s.

(** [arr.join(sep)] on an array of strings. *)
Fixpoint Array_join (sep : jsstring) (arr : list jsstring) : jsstring :=
  match arr with
  | [] => []
  | [x] => x
  | x :: rest => x ++ sep ++ Array_join sep rest
  end.

(** The text that [copyAll] hands to the clipboard and [downloadTxt] puts in
    the file: [variations.join] with a line feed. *)
Definition exportText (st : AppState) : jsstring :=
  Array_join [10] (variations st).

(** [const reset = () => setVariations([])] *)
Definition reset (st : AppState) : AppState := setVariations st [].

(** The tile LETTERS of the page: [letterPositions(email).length]. *)
Definition lettersTile (st : AppState) : nat :=
  length (letterPositions (email st)).

(** ** Definitions used in the statements

    [flipLoopA] and [drawn] are proof devices: the loop of [flipCases] read on
    code units, and the uniqueness set of [sampleUniqueBigInt] after a number
    of draws. The lemmas below relate them to the code. *)

Definition toggleA (c : codeunit) : codeunit :=
  if isLower c then c - 32 else if isUpper c then c + 32 else c.

Fixpoint flipLoopA (s : jsstring) (positions : list nat) (b : Z) (mask : Z)
    : jsstring :=
  match positions with
  | [] => s
  | idx :: rest =>
      if Z.testbit mask b then flipLoopA (alter toggleA idx s) rest (b + 1) mask
      else flipLoopA s rest (b + 1) mask
  end.

(** Whether the mask bits from [b] on, read along [positions], name the index
    [i] an odd number of times. *)
Fixpoint flips (positions : list nat) (b : Z) (mask : Z) (i : nat) : bool :=
  match positions with
  | [] => false
  | idx :: rest =>
      xorb (bool_decide (idx = i) && Z.testbit mask b)
        (flips rest (b + 1) mask i)
  end.

(** The cell that the formatted total has for the digit [c] at index [i] of a
    numeral of [len] digits. *)
Definition grouped_cell (len i : nat) (c : codeunit) : jsstring :=
  if (0 <? i)%nat && ((len - i) mod 3 =? 0)%nat then [44; c] else [c].

(** A custom index list as it is typed: a first numeral [t0], then further
    numerals, each after its own run of separators, with a run of separators
    before the first and after the last if one likes. [rest] pairs each
    further numeral with the run before it. *)
Definition writtenList (lead t0 : jsstring) (rest : list (jsstring * jsstring))
    (trail : jsstring) : jsstring :=
  lead ++ t0 ++ concat (map (fun p => fst p ++ snd p) rest) ++ trail.

(** A numeral that names an index of the source. *)
Definition indexNumeral (len : nat) (t : jsstring) : Prop :=
  t <> [] /\ forallb isDigit t = true
  /\ decimal t < Z.of_nat len /\ decimal t < 2 ^ 53.

(** The unit at [idx] exists and satisfies [P]. *)
Definition unit_at (P : codeunit -> bool) (s : jsstring) (idx : nat) : Prop :=
  exists c, s !! idx = Some c /\ P c = true.

(** One candidate: [rand % maxExclusive] for the oracle's value [r]. *)
Definition pickOf (r maxExclusive : Z) : Z :=
  Z.rem (BigInt_asUintN 64 r) maxExclusive.

(** The uniqueness set after [n] more draws, starting at draw [i]. *)
Fixpoint drawn (rnd : nat -> Z) (maxExclusive : Z) (i : nat) (set : list Z)
    (n : nat) : list Z :=
  match n with
  | O => set
  | S n' =>
      drawn rnd maxExclusive (S i) (Set_add (pickOf (rnd i) maxExclusive) set) n'
  end.

(** The oracle eventually yields [k] distinct candidates: among the
    candidates of its first [n] draws, for some [n], there are [k] pairwise
    distinct values. *)
Definition yields_distinct (rnd : nat -> Z) (maxExclusive k : Z) : Prop :=
  exists (n : nat) (l : list Z),
    NoDup l /\ k <= Z.of_nat (length l)
    /\ forall x, x ∈ l -> exists j, (j < n)%nat /\ x = pickOf (rnd j) maxExclusive.

Definition in_space (maxExclusive : Z) (masks : list Z) : Prop :=
  Forall (fun m => 0 <= m < maxExclusive) masks.

(** The draws at which a candidate comes up for the first time: the indices
    in [js], all below [i], in increasing order; [set] lists their candidates,
    and holds the candidate of every draw below [i]. *)
Definition first_draws (rnd : nat -> Z) (maxExclusive : Z) (i : nat)
    (js : list nat) (set : list Z) : Prop :=
  StronglySorted lt js
  /\ set = map (fun j => pickOf (rnd j) maxExclusive) js
  /\ (forall j, j ∈ js ->
        (j < i)%nat
        /\ forall i', (i' < j)%nat ->
              pickOf (rnd i') maxExclusive <> pickOf (rnd j) maxExclusive)
  /\ (forall i', (i' < i)%nat -> pickOf (rnd i') maxExclusive ∈ set).

(** [n] is a positive finite integer. *)
Definition positiveInteger (n : jsnumber) : bool :=
  Number_isInteger n && negb (js_le n (ofZ 0)).

(** The requested quantity as an integer, and the capped count
    [Math.min(n, 5000)]. *)
Definition quantityOf (n : jsnumber) : Z :=
  match n with
  | Finite q => Qfloor q
  | _ => 0
  end.

Definition wantCount (n : jsnumber) : Z := Z.min (quantityOf n) 5000.

(** Same source and same position settings. *)
Definition same_source (st st' : AppState) : Prop :=
  email st' = email st /\ useCustom st' = useCustom st
  /\ customIndexes st' = customIndexes st.

(** What the claim says of one variation [v]. *)
Definition framed (st : AppState) (positions : list nat) (v : jsstring) : Prop :=
  length v = length (email st)
  /\ forall i, i ∉ positions -> v !! i = email st !! i.

(** [Number.MAX_SAFE_INTEGER] *)
Definition MAX_SAFE_INTEGER : Z := 9007199254740991.

(** A condition on the raw values of the random source, the integers that
    [Math.floor(Math.random() * Number.MAX_SAFE_INTEGER)] evaluates to: some
    [k] of the draws give values of [0, MAX_SAFE_INTEGER) that are pairwise
    distinct modulo the size of the space. *)
Definition draws_distinct (rnd : nat -> Z) (maxExclusive k : Z) : Prop :=
  exists js : list nat,
    k <= Z.of_nat (length js)
    /\ Forall (fun j => 0 <= rnd j < MAX_SAFE_INTEGER) js
    /\ NoDup (map (fun j => rnd j mod maxExclusive) js).

(** ** States used as examples *)

(** Source ab, default positions. *)
Definition st_ab : AppState :=
  {| email := js "ab"; qty := ofZ 4; variations := [];
     useCustom := false; customIndexes := [] |}.

(** Custom index list 0,0 on a@b.c: two mask bits drive the same unit. *)
Definition st_twice : AppState :=
  {| email := js "a@b.c"; qty := ofZ 4; variations := [];
     useCustom := true; customIndexes := js "0,0" |}.

(** Custom index list 1 on a@b.c: the position holds no letter. *)
Definition st_at_sign : AppState :=
  {| email := js "a@b.c"; qty := ofZ 2; variations := [];
     useCustom := true; customIndexes := js "1" |}.

(** The source is U+00DF followed by @b.c, the custom index list is 0. *)
Definition st_sharp_s : AppState :=
  {| email := [223; 64; 98; 46; 99]; qty := ofZ 2; variations := [];
     useCustom := true; customIndexes := js "0" |}.

(** Quantity 5000.5 on a@b.c. *)
Definition st_fraction : AppState :=
  {| email := js "a@b.c"; qty := Finite (10001 # 2); variations := [];
     useCustom := false; customIndexes := [] |}.

(** A source with 65 letters: 63 times a, then @b.c. Its last letter, the c at
    index 66, is the 65th active position, driven by bit 64 of the mask. *)
Definition st_65_letters : AppState :=
  {| email := repeat 97 63 ++ js "@b.c"; qty := ofZ 10; variations := [];
     useCustom := false; customIndexes := [] |}.

(** Source a@b.c with quantity 100, and the eight variations of its space in
    the order of their masks. *)
Definition st_abc_100 : AppState :=
  {| email := js "a@b.c"; qty := ofZ 100; variations := [];
     useCustom := false; customIndexes := [] |}.

Definition abc_variations : list jsstring :=
  [js "a@b.c"; js "A@b.c"; js "a@B.c"; js "A@B.c";
   js "a@b.C"; js "A@b.C"; js "a@B.C"; js "A@B.C"].

(** ** The code on concrete inputs *)

Example letterPositions_initial :
  letterPositions (email initialState)
  = [0; 1; 2; 3; 4; 5; 6; 7; 8; 9; 10; 11; 12; 13; 14; 15; 16;
     18; 19; 20; 21; 22; 24; 25; 26]%nat.
Proof. vm_compute. reflexivity. Qed.

Example email_regex_accepts :
  RegExp_test EMAIL_REGEX (email initialState) = true
  /\ RegExp_test EMAIL_REGEX (js "a@b.c") = true.
Proof. vm_compute. done. Qed.

Example email_regex_rejects :
  map (RegExp_test EMAIL_REGEX)
    [js "ab"; js "a@b"; js "@b.c"; js "a@.c"; js "a@b."; js "a.b@c"; []]
  = [false; false; false; false; false; false; false].
Proof. vm_compute. reflexivity. Qed.

Example split_separators_examples :
  split_separators (js "0 1,, 5") = [js "0"; js "1"; js "5"]
  /\ split_separators (js ",a ") = [[]; js "a"; []]
  /\ split_separators [] = [[]].
Proof. vm_compute. done. Qed.

Example generate_small :
  generate 0 (fun _ => 0)
    {| email := js "a@b.c"; qty := ofZ 3; variations := [];
       useCustom := true; customIndexes := js "0, 2" |}
  = Some (Returned,
      {| email := js "a@b.c"; qty := ofZ 3;
         variations := [js "a@b.c"; js "A@b.c"; js "a@B.c"];
         useCustom := true; customIndexes := js "0, 2" |}).
Proof. vm_compute. reflexivity. Qed.

(** ** The matcher against the relation *)

Lemma lang_nil_nullable (r : regex) (s : jsstring) :
  lang r s -> s = [] -> nullable r = true.
Proof.
  induction 1 as [| | | | r1 r2 s1 s2 _ IH1 _ IH2 | r1 r2 s _ IH | r1 r2 s _ IH
                 | | ]; intros Hs; simpl; try done.
  - apply app_eq_nil in Hs as [-> ->]. by rewrite IH1, IH2.
  - by rewrite IH.
  - rewrite IH by done. apply orb_true_r.
Qed.

Lemma nullable_spec (r : regex) : nullable r = true <-> lang r [].
Proof.
  split; [| intros Hr; by eapply lang_nil_nullable].
  induction r as [| | | | c | r1 IH1 r2 IH2 | r1 IH1 r2 IH2 | r IH]; simpl;
    try done.
  - intros _. constructor.
  - intros [H1 H2]%andb_prop. apply (lang_Cat r1 r2 [] []); auto.
  - intros [H1 | H2]%orb_prop; [apply lang_Alt_l | apply lang_Alt_r]; auto.
  - intros _. constructor.
Qed.

Lemma deriv_sound (c : codeunit) (r : regex) :
  forall s, lang (deriv c r) s -> lang r (c :: s).
Proof.
  induction r as [| | | | d | r1 IH1 r2 IH2 | r1 IH1 r2 IH2 | r IH];
    intros s; simpl.
  - inversion 1.
  - inversion 1.
  - destruct (isLineTerminator c) eqn:Hc; inversion 1. by constructor.
  - inversion 1. constructor.
  - destruct (Z.eqb_spec c d) as [-> |]; inversion 1. constructor.
  - assert (lang (Cat (deriv c r1) r2) s -> lang (Cat r1 r2) (c :: s)) as Hcat.
    { inversion 1 as [| | | | ? ? s1 s2 H1 H2 | | | |]; subst.
      apply (lang_Cat r1 r2 (c :: s1) s2); auto. }
    destruct (nullable r1) eqn:Hn; [| done].
    inversion 1 as [| | | | | ? ? ? Hl | ? ? ? Hr | |]; subst; [auto |].
    apply (lang_Cat r1 r2 [] (c :: s)); [by apply nullable_spec | auto].
  - inversion 1; subst; [apply lang_Alt_l | apply lang_Alt_r]; auto.
  - inversion 1 as [| | | | ? ? s1 s2 H1 H2 | | | |]; subst.
    apply (lang_Star_cons r (c :: s1) s2); auto.
Qed.

Lemma deriv_complete (r : regex) (s' : jsstring) :
  lang r s' -> forall c s, s' = c :: s -> lang (deriv c r) s.
Proof.
  induction 1 as [| d Hd | d | d | r1 r2 s1 s2 H1 IH1 H2 IH2 | r1 r2 s0 _ IH
                 | r1 r2 s0 _ IH | | r s1 s2 H1 IH1 H2 IH2];
    intros c s Hs; simpl.
  - done.
  - injection Hs as <- <-. rewrite Hd. constructor.
  - injection Hs as <- <-. constructor.
  - injection Hs as <- <-. rewrite Z.eqb_refl. constructor.
  - destruct s1 as [| c1 s1]; simpl in Hs.
    + subst s2. apply nullable_spec in H1. rewrite H1.
      apply lang_Alt_r. by apply IH2.
    + injection Hs as -> <-.
      assert (lang (Cat (deriv c r1) r2) (s1 ++ s2)) as Hcat.
      { constructor; [by apply IH1 | done]. }
      destruct (nullable r1); [by apply lang_Alt_l | done].
  - apply lang_Alt_l. by apply IH.
  - apply lang_Alt_r. by apply IH.
  - done.
  - destruct s1 as [| c1 s1]; simpl in Hs.
    + by apply IH2.
    + injection Hs as -> <-. constructor; [by apply IH1 | done].
Qed.

Lemma matches_spec (s : jsstring) :
  forall r, matches r s = true <-> lang r s.
Proof.
  induction s as [| c s IH]; intros r; simpl.
  - apply nullable_spec.
  - rewrite IH. split; [apply deriv_sound |].
    intros Hr. by eapply deriv_complete.
Qed.

Lemma lang_Star_AnyUnit (s : jsstring) : lang (Star AnyUnit) s.
Proof.
  induction s as [| c s IH]; [constructor |].
  apply (lang_Star_cons AnyUnit [c] s); [constructor | done].
Qed.

(** [test] succeeds exactly when some substring matches the pattern. *)
Lemma RegExp_test_spec (r : regex) (s : jsstring) :
  RegExp_test r s = true <->
  exists pre mid post, s = pre ++ mid ++ post /\ lang r mid.
Proof.
  unfold RegExp_test. rewrite matches_spec. split.
  - inversion 1 as [| | | | ? ? pre rest _ Hrest | | | |]; subst.
    inversion Hrest as [| | | | ? ? mid post Hmid _ | | | |]; subst.
    by exists pre, mid, post.
  - intros (pre & mid & post & -> & Hmid).
    repeat constructor; [apply lang_Star_AnyUnit | done | apply lang_Star_AnyUnit].
Qed.

Lemma lang_Star_Dot (s : jsstring) :
  lang (Star Dot) s <-> Forall (fun c => isLineTerminator c = false) s.
Proof.
  split.
  - intros Hs. remember (Star Dot) as r eqn:Hr.
    induction Hs as [| | | | | | | | r s1 s2 H1 _ _ IH2]; try done.
    injection Hr as ->. inversion H1; subst. constructor; [done | by apply IH2].
  - induction 1 as [| c s Hc _ IH]; [constructor |].
    apply (lang_Star_cons Dot [c] s); [by constructor | done].
Qed.

Lemma lang_Plus_Dot (s : jsstring) : lang (Plus Dot) s <-> dots s.
Proof.
  unfold Plus, dots. split.
  - inversion 1 as [| | | | ? ? s1 s2 H1 H2 | | | |]; subst.
    inversion H1; subst. split; [done |].
    constructor; [done | by apply lang_Star_Dot].
  - intros [Hne Hs]. destruct Hs as [| c s Hc Hs]; [done |].
    apply (lang_Cat Dot (Star Dot) [c] s); [by constructor |].
    by apply lang_Star_Dot.
Qed.

(** [EMAIL_REGEX.test(s)]: somewhere in [s] there are an at sign and, later,
    a full stop, with at least one unit before the at sign, between the two
    and after the full stop, none of those a line terminator. *)
Lemma EMAIL_REGEX_test_spec (s : jsstring) :
  RegExp_test EMAIL_REGEX s = true <->
  exists pre a b c post,
    s = pre ++ a ++ [64] ++ b ++ [46] ++ c ++ post
    /\ dots a /\ dots b /\ dots c.
Proof.
  rewrite RegExp_test_spec. unfold EMAIL_REGEX. split.
  - intros (pre & mid & post & -> & Hmid).
    inversion Hmid as [| | | | ? ? a r1 Ha Hr1 | | | |]; subst.
    inversion Hr1 as [| | | | ? ? at_ r2 Hat Hr2 | | | |]; subst.
    inversion Hr2 as [| | | | ? ? b r3 Hb Hr3 | | | |]; subst.
    inversion Hr3 as [| | | | ? ? stop c Hstop Hc | | | |]; subst.
    inversion Hat; subst. inversion Hstop; subst.
    exists pre, a, b, c, post. rewrite !lang_Plus_Dot in *.
    split; [| done]. by rewrite <- !app_assoc.
  - intros (pre & a & b & c & post & -> & Ha & Hb & Hc).
    exists pre, (a ++ [64] ++ b ++ [46] ++ c), post.
    split; [by rewrite <- !app_assoc |].
    rewrite <- !lang_Plus_Dot in *.
    repeat (constructor; try done).
Qed.

(** ** Bits of a mask *)

Lemma mask_bit (mask b : Z) :
  0 <= b -> (Z.land (Z.shiftr mask b) 1 =? 1) = Z.testbit mask b.
Proof.
  intros Hb.
  change 1 with (Z.ones 1) at 1.
  rewrite Z.land_ones by lia.
  change (2 ^ 1) with 2.
  rewrite <- Z.bit0_mod, Z.shiftr_spec by lia.
  rewrite Z.add_0_l.
  by destruct (Z.testbit mask b).
Qed.

Lemma mask_eq_of_bits (n m1 m2 : Z) :
  0 <= n -> 0 <= m1 < 2 ^ n -> 0 <= m2 < 2 ^ n ->
  (forall j, 0 <= j < n -> Z.testbit m1 j = Z.testbit m2 j) ->
  m1 = m2.
Proof.
  intros Hn H1 H2 Hbits.
  apply Z.bits_inj'. intros j Hj.
  destruct (Z_lt_ge_dec j n) as [Hlt | Hge].
  - apply Hbits. lia.
  - rewrite <- (Z.mod_small m1 (2 ^ n)), <- (Z.mod_small m2 (2 ^ n)) by lia.
    by rewrite !Z.mod_pow2_bits_high by lia.
Qed.

(** ** [flipCases] on arbitrary text *)

Section FlipLoop.
Context `{H : Host}.

(** With every position inside the array the loop throws nothing, keeps the
    number of cells and writes only cells named in [positions]. *)
Lemma flipLoop_in_range (positions : list nat) :
  forall (arr : list jsstring) (b mask : Z),
    Forall (fun idx => (idx < length arr)%nat) positions ->
    exists arr',
      flipLoop arr positions b mask = Ok arr'
      /\ length arr' = length arr
      /\ forall i, i ∉ positions -> arr' !! i = arr !! i.
Proof.
  induction positions as [| idx rest IH]; intros arr b mask Hin; simpl.
  - by exists arr.
  - apply Forall_cons in Hin as [Hidx Hrest].
    destruct (Z.land (Z.shiftr mask b) 1 =? 1).
    + destruct (lookup_lt_is_Some_2 arr idx Hidx) as [ch Hch].
      rewrite Hch.
      destruct (IH (<[idx := toggle ch]> arr) (b + 1) mask) as (arr' & He & Hl & Hf).
      { by rewrite length_insert. }
      exists arr'. split; [done |]. rewrite length_insert in Hl.
      split; [done |]. intros i Hi.
      apply not_elem_of_cons in Hi as [Hne Hi].
      rewrite (Hf i Hi). by apply list_lookup_insert_ne.
    + destruct (IH arr (b + 1) mask Hrest) as (arr' & He & Hl & Hf).
      exists arr'. split_and!; [done | done |].
      intros i Hi. apply not_elem_of_cons in Hi as [_ Hi]. by apply Hf.
Qed.

Lemma length_split_chars (base : jsstring) :
  length (split_chars base) = length base.
Proof. unfold split_chars. by rewrite length_map. Qed.

Lemma join_split_chars (base : jsstring) : join (split_chars base) = base.
Proof.
  unfold join, split_chars. induction base as [| c rest IH]; simpl; [done |].
  by rewrite IH.
Qed.

(** [flipCases] with mask 0 gives the source back. *)
Lemma flipLoop_mask_0 (positions : list nat) :
  forall (arr : list jsstring) (b : Z),
    flipLoop arr positions b 0 = Ok arr.
Proof.
  induction positions as [| idx rest IH]; intros arr b; simpl; [done |].
  rewrite Z.shiftr_0_l. simpl. apply IH.
Qed.

Lemma flipCases_mask_0 (base : jsstring) (positions : list nat) :
  flipCases base positions 0 = Ok base.
Proof.
  unfold flipCases. rewrite flipLoop_mask_0. simpl. by rewrite join_split_chars.
Qed.

End FlipLoop.

(** ** [flipCases] on ASCII positions

    Where every active position holds an ASCII unit, a cell never holds more
    than one unit and the loop is a loop on code units: [flipLoopA]. *)

Lemma toggleA_ascii (c : codeunit) : isAscii c = true -> isAscii (toggleA c) = true.
Proof.
  unfold isAscii, toggleA, isLower, isUpper. intros Hc.
  repeat case_match; lia.
Qed.

Lemma toggleA_letter (c : codeunit) : isLetter c = true -> toggleA c <> c.
Proof.
  unfold isLetter, toggleA, isLower, isUpper. intros Hc.
  repeat case_match; lia.
Qed.

Lemma isLetter_ascii (c : codeunit) : isLetter c = true -> isAscii c = true.
Proof. unfold isLetter, isAscii. lia. Qed.

Lemma unit_at_alter (P : codeunit -> bool) (f : codeunit -> codeunit)
    (s : jsstring) (i idx : nat) :
  (forall c, P c = true -> P (f c) = true) ->
  unit_at P s idx -> unit_at P (alter f i s) idx.
Proof.
  intros Hf (c & Hc & HP). unfold unit_at.
  destruct (decide (i = idx)) as [-> | Hne].
  - exists (f c). rewrite list_lookup_alter_eq, Hc. split; [done | by apply Hf].
  - exists c. by rewrite list_lookup_alter_ne.
Qed.

Section FlipAscii.
Context `{H : Host}.

Lemma toggle_ascii (c : codeunit) :
  isAscii c = true -> toggle [c] = [toggleA c].
Proof.
  intros Ha. unfold toggle, toggleA.
  destruct (isLower c) eqn:Hl.
  - rewrite (toUpperCase_lower c Hl).
    destruct (decide ([c] = [c - 32])) as [Heq | _]; [| done].
    injection Heq. lia.
  - rewrite (toUpperCase_ascii c Ha Hl).
    destruct (decide ([c] = [c])) as [_ | Hne]; [| done].
    destruct (isUpper c) eqn:Hu.
    + by apply toLowerCase_upper.
    + by apply toLowerCase_ascii.
Qed.

Lemma flipLoop_ascii (positions : list nat) (mask : Z) :
  forall (s : jsstring) (b : Z),
    0 <= b ->
    Forall (unit_at isAscii s) positions ->
    flipLoop (split_chars s) positions b mask
    = Ok (split_chars (flipLoopA s positions b mask)).
Proof.
  induction positions as [| idx rest IH]; intros s b Hb Hpos; simpl; [done |].
  apply Forall_cons in Hpos as [(c & Hc & Ha) Hrest].
  rewrite mask_bit by done.
  destruct (Z.testbit mask b).
  - unfold split_chars at 1. rewrite list_lookup_fmap, Hc. simpl.
    rewrite toggle_ascii by done.
    replace (<[idx := [toggleA c]]> (split_chars s))
      with (split_chars (alter toggleA idx s)).
    + apply IH; [lia |].
      eapply Forall_impl; [exact Hrest |].
      intros i Hi. apply unit_at_alter; [apply toggleA_ascii | done].
    + unfold split_chars. apply list_eq. intros i.
      rewrite list_lookup_fmap.
      destruct (decide (idx = i)) as [-> | Hne].
      * rewrite list_lookup_alter_eq, Hc.
        rewrite list_lookup_insert_eq; [done |].
        rewrite length_map. by eapply lookup_lt_Some.
      * rewrite list_lookup_alter_ne, list_lookup_insert_ne by done.
        by rewrite list_lookup_fmap.
  - apply IH; [lia | done].
Qed.

Lemma flipCases_ascii (base : jsstring) (positions : list nat) (mask : Z) :
  Forall (unit_at isAscii base) positions ->
  flipCases base positions mask = Ok (flipLoopA base positions 0 mask).
Proof.
  intros Hpos. unfold flipCases.
  rewrite (flipLoop_ascii positions mask base 0) by done.
  simpl. by rewrite join_split_chars.
Qed.

End FlipAscii.

(** *** The loop on code units *)

Lemma length_flipLoopA (positions : list nat) (mask : Z) :
  forall (s : jsstring) (b : Z),
    length (flipLoopA s positions b mask) = length s.
Proof.
  induction positions as [| idx rest IH]; intros s b; simpl; [done |].
  destruct (Z.testbit mask b); rewrite IH; [apply length_alter | done].
Qed.

Lemma flipLoopA_frame (positions : list nat) (mask : Z) :
  forall (s : jsstring) (b : Z) (i : nat),
    i ∉ positions -> flipLoopA s positions b mask !! i = s !! i.
Proof.
  induction positions as [| idx rest IH]; intros s b i Hi; simpl; [done |].
  apply not_elem_of_cons in Hi as [Hne Hi].
  destruct (Z.testbit mask b); rewrite IH by done; [| done].
  by apply list_lookup_alter_ne.
Qed.

(** With pairwise distinct positions, the unit at the [j]-th position is
    toggled exactly when bit [b + j] of the mask is set. *)
Lemma flipLoopA_at (positions : list nat) (mask : Z) :
  forall (s : jsstring) (b : Z) (j idx : nat),
    NoDup positions ->
    positions !! j = Some idx ->
    flipLoopA s positions b mask !! idx
    = (if Z.testbit mask (b + Z.of_nat j) then toggleA else id) <$> s !! idx.
Proof.
  induction positions as [| p rest IH]; intros s b j idx Hnd Hj; [done |].
  apply NoDup_cons in Hnd as [Hp Hnd]. simpl.
  destruct j as [| j]; simpl in Hj.
  - injection Hj as ->. rewrite Z.add_0_r.
    destruct (Z.testbit mask b); rewrite flipLoopA_frame by done.
    + apply list_lookup_alter_eq.
    + by destruct (s !! idx).
  - assert (p <> idx) as Hne.
    { intros ->. apply Hp. by eapply list_elem_of_lookup_2. }
    replace (b + Z.of_nat (S j)) with ((b + 1) + Z.of_nat j) by lia.
    destruct (Z.testbit mask b); rewrite (IH _ _ j idx) by done; [| done].
    by rewrite list_lookup_alter_ne.
Qed.

(** Rendering is injective on the masks of the space when the positions are
    pairwise distinct letters. *)
Lemma flipLoopA_inj (s : jsstring) (positions : list nat) (m1 m2 : Z) :
  NoDup positions ->
  Forall (unit_at isLetter s) positions ->
  0 <= m1 < 2 ^ Z.of_nat (length positions) ->
  0 <= m2 < 2 ^ Z.of_nat (length positions) ->
  flipLoopA s positions 0 m1 = flipLoopA s positions 0 m2 ->
  m1 = m2.
Proof.
  intros Hnd Hlet H1 H2 Heq.
  apply (mask_eq_of_bits (Z.of_nat (length positions))); [lia | done | done |].
  intros j Hj.
  destruct (lookup_lt_is_Some_2 positions (Z.to_nat j)) as [idx Hidx]; [lia |].
  assert (unit_at isLetter s idx) as (c & Hc & Hl).
  { eapply Forall_forall; [exact Hlet |]. by eapply list_elem_of_lookup_2. }
  pose proof (flipLoopA_at positions m1 s 0 _ idx Hnd Hidx) as E1.
  pose proof (flipLoopA_at positions m2 s 0 _ idx Hnd Hidx) as E2.
  rewrite Heq, E2, Hc in E1. rewrite Z2Nat.id, Z.add_0_l in E1 by lia.
  pose proof (toggleA_letter c Hl).
  destruct (Z.testbit m1 j), (Z.testbit m2 j); simpl in E1; congruence.
Qed.

(** ** The active positions *)

Lemma letterPositions_from_spec (str : jsstring) :
  forall (i idx : nat),
    idx ∈ letterPositions_from i str <->
    (i <= idx)%nat /\ unit_at isLetter str (idx - i).
Proof.
  unfold unit_at.
  induction str as [| ch rest IH]; intros i idx; simpl.
  - split; [by intros ?%elem_of_nil | by intros [_ (c & ? & _)]].
  - assert (idx ∈ letterPositions_from (S i) rest <->
            (i < idx)%nat /\ exists c, (ch :: rest) !! (idx - i)%nat = Some c
                                       /\ isLetter c = true) as Htail.
    { rewrite IH. split.
      - intros [Hle (c & Hc & Hl)]. split; [lia |]. exists c. split; [| done].
        replace (idx - i)%nat with (S (idx - S i)) by lia. done.
      - intros [Hlt (c & Hc & Hl)]. split; [lia |]. exists c. split; [| done].
        replace (idx - i)%nat with (S (idx - S i)) in Hc by lia. done. }
    destruct (isLetter ch) eqn:Hch.
    + rewrite elem_of_cons, Htail. split.
      * intros [-> | [Hlt Hc]]; [| split; [lia | done]].
        split; [lia |]. rewrite Nat.sub_diag. by exists ch.
      * intros [Hle Hc]. destruct (decide (idx = i)) as [-> | Hne]; [by left |].
        right. split; [lia | done].
    + rewrite Htail. split.
      * intros [Hlt Hc]. split; [lia | done].
      * intros [Hle (c & Hc & Hl)]. split; [| by exists c].
        destruct (decide (idx = i)) as [-> | Hne]; [| lia].
        rewrite Nat.sub_diag in Hc. simpl in Hc. congruence.
Qed.

Lemma letterPositions_from_NoDup (str : jsstring) :
  forall i, NoDup (letterPositions_from i str).
Proof.
  induction str as [| ch rest IH]; intros i; simpl; [constructor |].
  destruct (isLetter ch); [| apply IH].
  constructor; [| apply IH].
  rewrite letterPositions_from_spec. lia.
Qed.

Lemma letterPositions_NoDup (str : jsstring) : NoDup (letterPositions str).
Proof. apply letterPositions_from_NoDup. Qed.

Lemma letterPositions_letters (str : jsstring) :
  Forall (unit_at isLetter str) (letterPositions str).
Proof.
  apply Forall_forall. intros idx Hidx.
  apply letterPositions_from_spec in Hidx as [_ Hidx].
  by rewrite Nat.sub_0_r in Hidx.
Qed.

Lemma unit_at_in_range (P : codeunit -> bool) (s : jsstring) (idx : nat) :
  unit_at P s idx -> (idx < length s)%nat.
Proof. intros (c & Hc & _). by eapply lookup_lt_Some. Qed.

Lemma unit_at_weaken (P Q : codeunit -> bool) (s : jsstring) (idx : nat) :
  (forall c, P c = true -> Q c = true) -> unit_at P s idx -> unit_at Q s idx.
Proof. intros HPQ (c & Hc & HP). exists c. auto. Qed.

(** What a Number that passed the filter of [customPositions] indexes. *)
Lemma toIndex_in_range (n : jsnumber) (len : nat) :
  Number_isInteger n && js_le (ofZ 0) n && js_lt n (ofZ (Z.of_nat len)) = true ->
  (toIndex n < len)%nat.
Proof.
  intros Hn. apply andb_prop in Hn as [Hn Hlt]. apply andb_prop in Hn as [Hint Hge].
  destruct n as [| | | q]; try done.
  simpl in *. unfold Qfloor.
  apply negb_true_iff in Hlt. unfold Qle_bool in *. simpl in *.
  assert (Qnum q / Z.pos (Qden q) < Z.of_nat len).
  { apply Z.div_lt_upper_bound; lia. }
  assert (0 <= Qnum q / Z.pos (Qden q)). { apply Z.div_pos; lia. }
  lia.
Qed.

Section Positions.
Context `{H : Host}.

Lemma customPositions_default (st : AppState) :
  useCustom st = false -> customPositions st = letterPositions (email st).
Proof. intros Hc. unfold customPositions. by rewrite Hc. Qed.

(** Every active position is an index of the source. *)
Lemma customPositions_in_range (st : AppState) :
  Forall (fun idx => (idx < length (email st))%nat) (customPositions st).
Proof.
  assert (Forall (fun idx => (idx < length (email st))%nat)
            (allLetterPositions st)) as Hall.
  { eapply Forall_impl; [apply letterPositions_letters |].
    intros idx. apply unit_at_in_range. }
  unfold customPositions.
  destruct (negb (useCustom st)); [done |].
  destruct (customParts st) as [| n parts] eqn:Hparts; [done |].
  rewrite <- Hparts. apply Forall_fmap, Forall_forall.
  intros n' Hn'. unfold customParts in Hn'.
  apply list_elem_of_filter in Hn' as [Hn' _].
  apply toIndex_in_range. by apply Is_true_eq_true.
Qed.

(** The source's comment on [totalPossible]: 2^n using BigInt. *)
Lemma totalPossible_pow (st : AppState) :
  totalPossible st = 2 ^ Z.of_nat (lettersCount st).
Proof. unfold totalPossible. apply Z.shiftl_1_l. Qed.

Lemma totalPossible_pos (st : AppState) : 0 < totalPossible st.
Proof. rewrite totalPossible_pow. apply Z.pow_pos_nonneg; lia. Qed.

End Positions.

(** ** The sampling loop *)

Lemma asUintN_range (r : Z) : 0 <= BigInt_asUintN 64 r < 2 ^ 64.
Proof. unfold BigInt_asUintN. apply Z.mod_pos_bound. lia. Qed.

Lemma pickOf_range (r maxExclusive : Z) :
  0 < maxExclusive -> 0 <= pickOf r maxExclusive < maxExclusive.
Proof.
  intros Hm. unfold pickOf. apply Z.rem_bound_pos; [| done].
  apply asUintN_range.
Qed.

Lemma pickOf_below_2_64 (r maxExclusive : Z) :
  0 < maxExclusive -> 0 <= pickOf r maxExclusive < 2 ^ 64.
Proof.
  intros Hm. unfold pickOf. pose proof (asUintN_range r) as Hr.
  rewrite Z.rem_mod_nonneg by lia.
  pose proof (Z.mod_pos_bound (BigInt_asUintN 64 r) maxExclusive Hm).
  pose proof (Z.mod_le (BigInt_asUintN 64 r) maxExclusive). lia.
Qed.

Lemma Set_add_NoDup (x : Z) (set : list Z) : NoDup set -> NoDup (Set_add x set).
Proof.
  intros Hnd. unfold Set_add. case_decide; [done |].
  apply NoDup_app. split_and!; [done | | apply NoDup_singleton].
  intros y Hy ->%list_elem_of_singleton. done.
Qed.

Lemma Set_add_in_space (maxExclusive x : Z) (set : list Z) :
  0 <= x < maxExclusive -> in_space maxExclusive set ->
  in_space maxExclusive (Set_add x set).
Proof.
  intros Hx Hs. unfold Set_add, in_space. case_decide; [done |].
  apply Forall_app. split; [done |]. by apply Forall_singleton.
Qed.

Lemma Set_add_length (x : Z) (set : list Z) :
  (length set <= length (Set_add x set) <= S (length set))%nat.
Proof.
  unfold Set_add. case_decide; [lia |]. rewrite length_app. simpl. lia.
Qed.

(** A duplicate-free list of masks of the space has at most as many members
    as the space. *)
Lemma in_space_length (maxExclusive : Z) (set : list Z) :
  0 <= maxExclusive -> NoDup set -> in_space maxExclusive set ->
  Z.of_nat (length set) <= maxExclusive.
Proof.
  intros Hm Hnd Hs.
  assert (set ⊆+ seqZ 0 maxExclusive) as Hsub.
  { apply NoDup_submseteq; [done |]. intros x Hx.
    apply elem_of_seqZ. eapply Forall_forall in Hs; [| exact Hx]. lia. }
  apply submseteq_length in Hsub. rewrite length_seqZ in Hsub. lia.
Qed.

Lemma elem_of_Set_add (x y : Z) (set : list Z) :
  x ∈ Set_add y set <-> x = y \/ x ∈ set.
Proof.
  unfold Set_add. case_decide as Hy.
  - split; [by right | intros [-> | Hx]; done].
  - rewrite elem_of_app, list_elem_of_singleton. tauto.
Qed.

Lemma drawn_NoDup (rnd : nat -> Z) (maxExclusive : Z) (n : nat) :
  forall (i : nat) (set : list Z),
    NoDup set -> NoDup (drawn rnd maxExclusive i set n).
Proof.
  induction n as [| n IH]; intros i set Hnd; simpl; [done |].
  by apply IH, Set_add_NoDup.
Qed.

(** The members of the set after [n] draws: those it had, and the candidates
    of these draws. *)
Lemma elem_of_drawn (rnd : nat -> Z) (maxExclusive : Z) (n : nat) :
  forall (i : nat) (set : list Z) (x : Z),
    x ∈ drawn rnd maxExclusive i set n <->
    x ∈ set
    \/ exists j, (i <= j < i + n)%nat /\ x = pickOf (rnd j) maxExclusive.
Proof.
  induction n as [| n IH]; intros i set x; simpl.
  - split; [by left | intros [Hx | (j & Hj & _)]; [done | lia]].
  - rewrite IH, elem_of_Set_add. split.
    + intros [[-> | Hx] | (j & Hj & ->)].
      * right. exists i. split; [lia | done].
      * by left.
      * right. exists j. split; [lia | done].
    + intros [Hx | (j & Hj & ->)]; [left; by right |].
      destruct (decide (j = i)) as [-> | Hne]; [left; by left |].
      right. exists j. split; [lia | done].
Qed.

Lemma yields_distinct_drawn (rnd : nat -> Z) (maxExclusive k : Z) :
  yields_distinct rnd maxExclusive k <->
  exists n, k <= Z.of_nat (length (drawn rnd maxExclusive 0 [] n)).
Proof.
  split.
  - intros (n & l & Hnd & Hk & Hl). exists n.
    assert (l ⊆+ drawn rnd maxExclusive 0 [] n) as Hsub.
    { apply NoDup_submseteq; [done |]. intros x Hx.
      apply elem_of_drawn. right. destruct (Hl x Hx) as (j & Hj & ->).
      exists j. split; [lia | done]. }
    apply submseteq_length in Hsub. lia.
  - intros [n Hn]. exists n, (drawn rnd maxExclusive 0 [] n).
    split; [apply drawn_NoDup; constructor |]. split; [done |].
    intros x [Hx | (j & Hj & ->)]%elem_of_drawn; [by apply elem_of_nil in Hx |].
    exists j. split; [lia | done].
Qed.

Lemma drawn_length_mono (rnd : nat -> Z) (maxExclusive : Z) (n : nat) :
  forall (i : nat) (set : list Z),
    (length set <= length (drawn rnd maxExclusive i set n))%nat.
Proof.
  induction n as [| n IH]; intros i set; simpl; [lia |].
  etrans; [| apply IH]. apply Set_add_length.
Qed.

(** Whatever the loop returns: no exception, exactly [k] masks, pairwise
    distinct, all of the space. *)
Lemma sampleLoop_sound (rnd : nat -> Z) (maxExclusive k : Z) (fuel : nat) :
  forall (i : nat) (set : list Z) (r : result (list Z)),
    0 < maxExclusive ->
    NoDup set -> in_space maxExclusive set -> Z.of_nat (length set) <= k ->
    sampleLoop fuel rnd i set maxExclusive k = Some r ->
    exists l, r = Ok l /\ NoDup l /\ in_space maxExclusive l
              /\ Z.of_nat (length l) = k.
Proof.
  induction fuel as [| fuel IH]; intros i set r Hm Hnd Hs Hlen; simpl.
  - destruct (Z.ltb_spec (Z.of_nat (length set)) k); [done |].
    intros [= <-]. exists set. split_and!; [done | done | done | lia].
  - destruct (Z.ltb_spec (Z.of_nat (length set)) k) as [Hlt | Hge].
    + destruct (Z.eqb_spec maxExclusive 0); [lia |].
      apply IH; [done | by apply Set_add_NoDup | |].
      * apply Set_add_in_space; [| done]. by apply pickOf_range.
      * pose proof (Set_add_length (pickOf (rnd i) maxExclusive) set).
        unfold pickOf in *. lia.
    + intros [= <-]. exists set. split_and!; [done | done | done | lia].
Qed.

(** Asked for more masks than the space has, the loop never comes back. *)
Lemma sampleLoop_exhausted (rnd : nat -> Z) (maxExclusive k : Z) (fuel : nat) :
  forall (i : nat) (set : list Z),
    0 < maxExclusive -> maxExclusive < k ->
    NoDup set -> in_space maxExclusive set ->
    sampleLoop fuel rnd i set maxExclusive k = None.
Proof.
  induction fuel as [| fuel IH]; intros i set Hm Hk Hnd Hs; simpl;
    pose proof (in_space_length maxExclusive set ltac:(lia) Hnd Hs);
    (destruct (Z.ltb_spec (Z.of_nat (length set)) k); [| lia]); [done |].
  destruct (Z.eqb_spec maxExclusive 0); [lia |].
  apply IH; [done | done | by apply Set_add_NoDup |].
  apply Set_add_in_space; [| done]. by apply pickOf_range.
Qed.

(** The loop comes back exactly when the oracle yields enough distinct
    candidates, and then within that many draws. *)
Lemma sampleLoop_returns (rnd : nat -> Z) (maxExclusive k : Z) (n : nat) :
  forall (i : nat) (set : list Z),
    maxExclusive <> 0 ->
    k <= Z.of_nat (length (drawn rnd maxExclusive i set n)) ->
    exists l, sampleLoop n rnd i set maxExclusive k = Some (Ok l).
Proof.
  induction n as [| n IH]; intros i set Hm Hk; simpl in *.
  - destruct (Z.ltb_spec (Z.of_nat (length set)) k); [lia | by exists set].
  - destruct (Z.ltb_spec (Z.of_nat (length set)) k); [| by exists set].
    destruct (Z.eqb_spec maxExclusive 0); [done |]. by apply IH.
Qed.

Lemma sampleLoop_returned (rnd : nat -> Z) (maxExclusive k : Z) (fuel : nat) :
  forall (i : nat) (set : list Z) (l : list Z),
    sampleLoop fuel rnd i set maxExclusive k = Some (Ok l) ->
    k <= Z.of_nat (length (drawn rnd maxExclusive i set fuel)).
Proof.
  induction fuel as [| fuel IH]; intros i set l; simpl.
  - destruct (Z.ltb_spec (Z.of_nat (length set)) k); [done | lia].
  - destruct (Z.ltb_spec (Z.of_nat (length set)) k) as [Hlt | Hge].
    + destruct (Z.eqb_spec maxExclusive 0); [done |]. apply IH.
    + intros _.
      pose proof (drawn_length_mono rnd maxExclusive fuel (S i)
                    (Set_add (pickOf (rnd i) maxExclusive) set)).
      pose proof (Set_add_length (pickOf (rnd i) maxExclusive) set). lia.
Qed.

(** ** Quantities *)

Lemma Qis_int_exact (q : Q) :
  Qis_int q = true -> Qnum q = Z.pos (Qden q) * Qfloor q.
Proof.
  unfold Qis_int, Qfloor. intros Hq%Z.eqb_eq.
  pose proof (Z.div_mod (Qnum q) (Z.pos (Qden q))). lia.
Qed.

Lemma positiveInteger_quantity (n : jsnumber) :
  positiveInteger n = true ->
  Number_isFinite n = true /\ js_le n (ofZ 0) = false /\ 0 < quantityOf n
  /\ BigInt_ofNumber (Math_min n (ofZ 5000)) = Ok (wantCount n).
Proof.
  unfold positiveInteger, wantCount. intros [Hint Hpos]%andb_prop.
  apply negb_true_iff in Hpos.
  destruct n as [| | | q]; try done. simpl in *.
  pose proof (Qis_int_exact q Hint) as Hq.
  unfold Qle_bool in *. simpl in *.
  split_and!; [done | done | nia |].
  destruct (Z.leb_spec (Qnum q * 1) (5000 * Z.pos (Qden q))) as [Hle | Hgt]; simpl.
  - rewrite Hint. f_equal. rewrite Z.min_l; [done | nia].
  - f_equal. rewrite Z.min_r; [done | nia].
Qed.

(** ** [generate] on a valid request *)

Section Generate.
Context `{H : Host}.

Lemma mapM_app {A B} (f : A -> result B) (xs ys : list A) :
  mapM f (xs ++ ys)
  = (try a <- mapM f xs; try b <- mapM f ys; Ok (a ++ b)).
Proof.
  induction xs as [| x xs IH]; simpl.
  - by destruct (mapM f ys).
  - destruct (f x) as [y |]; simpl; [| done]. rewrite IH.
    destruct (mapM f xs) as [a |]; simpl; [| done].
    by destruct (mapM f ys).
Qed.

Lemma mapM_total {A B} (f : A -> result B) (g : A -> B) (xs : list A) :
  (forall x, x ∈ xs -> f x = Ok (g x)) -> mapM f xs = Ok (map g xs).
Proof.
  induction xs as [| x xs IH]; intros Hf; simpl; [done |].
  rewrite Hf by left. simpl. rewrite IH; [done |].
  intros y Hy. apply Hf. by right.
Qed.

Lemma mapM_length {A B} (f : A -> result B) (xs : list A) (ys : list B) :
  mapM f xs = Ok ys -> length ys = length xs.
Proof.
  revert ys. induction xs as [| x xs IH]; intros ys; simpl.
  - by intros [= <-].
  - destruct (f x) as [y |]; simpl; [| done].
    destruct (mapM f xs) as [ys' |]; simpl; [| done].
    intros [= <-]. simpl. f_equal. by apply IH.
Qed.

(** Rendering throws nothing: the active positions are indices of the
    source. *)
Lemma render_total (st : AppState) (mask : Z) :
  exists v, render st mask = Ok v.
Proof.
  unfold render, flipCases.
  destruct (flipLoop_in_range (customPositions st) (split_chars (email st)) 0 mask)
    as (arr & -> & _).
  { rewrite length_split_chars. apply customPositions_in_range. }
  simpl. by eexists.
Qed.

Lemma mapM_render_total (st : AppState) (picks : list Z) :
  exists out, mapM (render st) picks = Ok out.
Proof.
  induction picks as [| m picks [out IH]]; simpl; [by eexists |].
  destruct (render_total st m) as [v ->]. simpl. rewrite IH. simpl. by eexists.
Qed.

Lemma render_ascii (st : AppState) (mask : Z) :
  Forall (unit_at isAscii (email st)) (customPositions st) ->
  render st mask = Ok (flipLoopA (email st) (customPositions st) 0 mask).
Proof. apply flipCases_ascii. Qed.

Lemma generate_valid (fuel : nat) (rnd : nat -> Z) (st : AppState) :
  RegExp_test EMAIL_REGEX (email st) = true ->
  positiveInteger (qty st) = true ->
  generate fuel rnd st
  = match maskPicks fuel rnd (totalPossible st) (wantCount (qty st)) with
    | None => None
    | Some (Throw e) => Some (Thrown e, st)
    | Some (Ok picks) =>
        match mapM (render st) picks with
        | Throw e => Some (Thrown e, st)
        | Ok out => Some (Returned, setVariations st out)
        end
    end.
Proof.
  intros Hemail (Hfin & Hpos & _ & Hwant)%positiveInteger_quantity.
  unfold generate. rewrite Hemail, Hfin, Hpos, Hwant. done.
Qed.

Lemma maskPicks_enumeration (fuel : nat) (rnd : nat -> Z) (max want : Z) :
  max <= 100000 ->
  maskPicks fuel rnd max want = Some (Ok (seqZ 0 (Z.min max want))).
Proof.
  intros Hmax. unfold maskPicks, Array_from_length, Number_ofBigInt.
  destruct (Z.leb_spec max 100000); [| lia].
  destruct (Z.ltb_spec max want); do 3 f_equal; lia.
Qed.

Lemma maskPicks_sampling (fuel : nat) (rnd : nat -> Z) (max want : Z) :
  100000 < max ->
  maskPicks fuel rnd max want = sampleUniqueBigInt fuel rnd max want.
Proof.
  intros Hmax. unfold maskPicks, Number_ofBigInt.
  destruct (Z.leb_spec max 100000); [lia | done].
Qed.

End Generate.

(** ** The specification's claims *)

(** *** Size of the space *)

(** C1. For every source and every active position list of length n,
    [totalPossible] is exactly 2^n as an unbounded integer: 1 for n = 0, and
    no precision is lost at or beyond n = 64. *)
Theorem totalPossible_exact :
  forall (H : Host) (st : AppState),
    totalPossible st = 2 ^ Z.of_nat (length (customPositions st))
    /\ (customPositions st = [] -> totalPossible st = 1)
    /\ (length (customPositions st) = 64%nat ->
        totalPossible st = 18446744073709551616)
    /\ (length (customPositions st) = 65%nat ->
        totalPossible st = 36893488147419103232).
Proof.
  intros H st. rewrite totalPossible_pow. unfold lettersCount.
  split_and!; [done | | |]; intros ->; done.
Qed.

(** *** The worked example *)

(** C9. For source ab the active positions are [0, 1], the space has 4
    masks, and masks 0, 1, 2, 3 render to ab, Ab, aB, AB: bit 0 drives
    position 0, bit 1 drives position 1. *)
Theorem render_ab :
  forall (H : Host),
    customPositions st_ab = [0; 1]%nat
    /\ totalPossible st_ab = 4
    /\ flipCases (js "ab") [0; 1]%nat 0 = Ok (js "ab")
    /\ flipCases (js "ab") [0; 1]%nat 1 = Ok (js "Ab")
    /\ flipCases (js "ab") [0; 1]%nat 2 = Ok (js "aB")
    /\ flipCases (js "ab") [0; 1]%nat 3 = Ok (js "AB").
Proof.
  intros H.
  assert (Forall (unit_at isAscii (js "ab")) [0; 1]%nat) as Hascii.
  { repeat constructor; eexists; (split; [reflexivity | done]). }
  split; [done |]. split; [done |].
  rewrite !flipCases_ascii by done. done.
Qed.

(** *** The email check *)

(** C10. When the source does not match [EMAIL_REGEX], [generate] alerts and
    returns: no mask is chosen (no draw of the oracle is used, whatever the
    fuel), nothing is rendered, and the state, the list of variations
    included, is as it was. *)
Theorem generate_email_check :
  forall (H : Host) (fuel : nat) (rnd : nat -> Z) (st : AppState),
    RegExp_test EMAIL_REGEX (email st) = false ->
    generate fuel rnd st = Some (Alerted msg_email, st).
Proof.
  intros H fuel rnd st Hemail. unfold generate. by rewrite Hemail.
Qed.

Lemma generate_email_check_witness :
  generate 0 (fun _ => 0)
    {| email := js "ab"; qty := ofZ 4; variations := [js "kept"];
       useCustom := false; customIndexes := [] |}
  = Some (Alerted msg_email,
      {| email := js "ab"; qty := ofZ 4; variations := [js "kept"];
         useCustom := false; customIndexes := [] |}).
Proof. apply generate_email_check. vm_compute. reflexivity. Defined.

(** *** Enumeration mode *)

Lemma same_source_render `{H : Host} (st st' : AppState) :
  same_source st st' ->
  totalPossible st' = totalPossible st /\ render st' = render st.
Proof.
  intros (He & Hu & Hc).
  assert (customPositions st' = customPositions st) as Hpos.
  { unfold customPositions, customParts, allLetterPositions.
    by rewrite He, Hu, Hc. }
  unfold totalPossible, lettersCount, render. by rewrite Hpos, He.
Qed.

Lemma seqZ_prefix (a b : Z) : a <= b -> seqZ 0 a `prefix_of` seqZ 0 b.
Proof.
  intros Hab. destruct (Z_lt_ge_dec a 0) as [Hneg | Hpos].
  - rewrite (seqZ_nil 0 a) by lia. apply prefix_nil.
  - exists (seqZ (0 + a) (b - a)). rewrite <- seqZ_app by lia. f_equal. lia.
Qed.

Lemma mapM_prefix {A B} (f : A -> result B) (xs ys : list A) (out out' : list B) :
  xs `prefix_of` ys -> mapM f xs = Ok out -> mapM f ys = Ok out' ->
  out `prefix_of` out'.
Proof.
  intros [zs ->] Hxs. rewrite mapM_app, Hxs. simpl.
  destruct (mapM f zs) as [b |]; simpl; [| done].
  intros [= <-]. by exists b.
Qed.

(** C8. Whenever the space has at most 100,000 masks, [generate] picks the
    masks 0, 1, ..., upto - 1 in increasing order, upto being the lesser of
    the space size and the capped quantity, and stores their renderings; a run
    on the same source and positions with a quantity at least as large stores
    a list that this one is a prefix of. *)
Theorem generate_enumeration :
  forall (H : Host) (fuel : nat) (rnd : nat -> Z) (st : AppState),
    RegExp_test EMAIL_REGEX (email st) = true ->
    positiveInteger (qty st) = true ->
    totalPossible st <= 100000 ->
    let upto := Z.min (totalPossible st) (wantCount (qty st)) in
    maskPicks fuel rnd (totalPossible st) (wantCount (qty st))
    = Some (Ok (map Z.of_nat (seq 0 (Z.to_nat upto))))
    /\ exists out,
         mapM (render st) (map Z.of_nat (seq 0 (Z.to_nat upto))) = Ok out
         /\ generate fuel rnd st = Some (Returned, setVariations st out)
         /\ forall fuel' rnd' st' out',
              same_source st st' ->
              positiveInteger (qty st') = true ->
              quantityOf (qty st) <= quantityOf (qty st') ->
              generate fuel' rnd' st' = Some (Returned, setVariations st' out') ->
              out `prefix_of` out'.
Proof.
  intros H fuel rnd st Hemail Hqty Hmax upto.
  assert (map Z.of_nat (seq 0 (Z.to_nat upto)) = seqZ 0 upto) as ->.
  { unfold seqZ. apply map_ext. intros i. lia. }
  pose proof (maskPicks_enumeration fuel rnd _ (wantCount (qty st)) Hmax) as Hpicks.
  fold upto in Hpicks. split; [done |].
  destruct (mapM_render_total st (seqZ 0 upto)) as [out Hout].
  exists out. split; [done |].
  split; [by rewrite generate_valid, Hpicks, Hout |].
  intros fuel' rnd' st' out' Hsame Hqty' Hle.
  destruct (same_source_render st st' Hsame) as [Htot Hrender].
  rewrite generate_valid by (by destruct Hsame as [-> _] || done).
  rewrite Htot, (maskPicks_enumeration fuel' rnd' _ _ Hmax), Hrender.
  set (upto' := Z.min (totalPossible st) (wantCount (qty st'))).
  destruct (mapM (render st) (seqZ 0 upto')) as [out2 |] eqn:Hout2; [| done].
  intros E. assert (out2 = out') as <-.
  { by injection E. }
  eapply mapM_prefix; [| exact Hout | exact Hout2].
  apply seqZ_prefix. unfold upto, upto', wantCount. lia.
Qed.

Lemma generate_enumeration_witness :
  exists out,
    generate 0 (fun _ => 0)
      {| email := js "a@b.c"; qty := ofZ 3; variations := [];
         useCustom := false; customIndexes := [] |}
    = Some (Returned,
        setVariations
          {| email := js "a@b.c"; qty := ofZ 3; variations := [];
             useCustom := false; customIndexes := [] |} out).
Proof.
  destruct (generate_enumeration ref_host 0 (fun _ => 0)
              {| email := js "a@b.c"; qty := ofZ 3; variations := [];
                 useCustom := false; customIndexes := [] |})
    as (_ & out & _ & Hgen & _).
  - vm_compute. reflexivity.
  - vm_compute. reflexivity.
  - vm_compute. discriminate.
  - exists out. exact Hgen.
Defined.

(** *** The masks of a run *)

(** Whatever [maskPicks] comes back with, for a count between 0 and the cap:
    no exception, pairwise distinct masks of the space, as many as the count
    or, if that is less, as the space has. *)
Lemma maskPicks_sound (fuel : nat) (rnd : nat -> Z) (max want : Z)
    (r : result (list Z)) :
  0 < max -> 0 <= want <= 5000 ->
  maskPicks fuel rnd max want = Some r ->
  exists picks,
    r = Ok picks /\ NoDup picks /\ in_space max picks
    /\ Z.of_nat (length picks) = Z.min want max.
Proof.
  intros Hmax Hwant. destruct (Z_le_gt_dec max 100000) as [Hsmall | Hlarge].
  - rewrite maskPicks_enumeration by done. intros [= <-].
    exists (seqZ 0 (Z.min max want)).
    split_and!; [done | apply NoDup_seqZ | | rewrite length_seqZ; lia].
    apply Forall_forall. intros m Hm%elem_of_seqZ. lia.
  - rewrite maskPicks_sampling by lia. unfold sampleUniqueBigInt. intros Hr.
    apply sampleLoop_sound in Hr as (l & -> & Hnd & Hs & Hlen);
      [| done | constructor | constructor | simpl; lia].
    exists l. split_and!; [done | done | done | lia].
Qed.

(** A value that [Math.floor(Math.random() * Number.MAX_SAFE_INTEGER)] can
    give goes through [BigInt.asUintN(64, _)] unchanged, and the candidate is
    its remainder modulo the space. *)
Lemma pickOf_safe (r maxExclusive : Z) :
  0 < maxExclusive -> 0 <= r < MAX_SAFE_INTEGER ->
  pickOf r maxExclusive = r mod maxExclusive.
Proof.
  intros Hm Hr. unfold pickOf, BigInt_asUintN, MAX_SAFE_INTEGER in *.
  rewrite (Z.mod_small r) by lia. apply Z.rem_mod_nonneg; lia.
Qed.

(** From the raw draws to the loop: draws that are pairwise distinct modulo
    the space give that many distinct candidates. *)
Lemma draws_distinct_yields (rnd : nat -> Z) (maxExclusive k : Z) :
  0 < maxExclusive ->
  draws_distinct rnd maxExclusive k -> yields_distinct rnd maxExclusive k.
Proof.
  intros Hm (js & Hk & Hrange & Hnd).
  exists (S (max_list js)), (map (fun j => rnd j mod maxExclusive) js).
  split; [done |]. split; [by rewrite length_map |].
  intros x (j & -> & Hj)%list_elem_of_fmap. exists j. split.
  - pose proof (max_list_elem_of_le j js Hj). lia.
  - symmetry. apply pickOf_safe; [done |].
    by eapply Forall_forall in Hrange.
Qed.

(** C4. For every valid request (an email-shaped source, a positive integer
    quantity) the masks chosen are pairwise distinct, each in
    [0, spaceSize), and exactly min(wantCount, spaceSize) of them, with
    wantCount = min(requestedQuantity, 5000); and they are produced, the run
    storing their renderings. In sampling mode that rests on the random
    source alone: among the values it gives, each in
    [0, Number.MAX_SAFE_INTEGER), wantCount are pairwise distinct modulo
    spaceSize. *)
Theorem generate_masks :
  forall (H : Host) (rnd : nat -> Z) (st : AppState),
    RegExp_test EMAIL_REGEX (email st) = true ->
    positiveInteger (qty st) = true ->
    (100000 < totalPossible st ->
     exists js : list nat,
       wantCount (qty st) <= Z.of_nat (length js)
       /\ Forall (fun j => 0 <= rnd j < MAX_SAFE_INTEGER) js
       /\ NoDup (map (fun j => rnd j mod totalPossible st) js)) ->
    wantCount (qty st) = Z.min (quantityOf (qty st)) 5000
    /\ exists fuel picks out,
         maskPicks fuel rnd (totalPossible st) (wantCount (qty st))
         = Some (Ok picks)
         /\ NoDup picks
         /\ Forall (fun mask => 0 <= mask < totalPossible st) picks
         /\ Z.of_nat (length picks)
            = Z.min (wantCount (qty st)) (totalPossible st)
         /\ mapM (render st) picks = Ok out
         /\ generate fuel rnd st = Some (Returned, setVariations st out).
Proof.
  intros H rnd st Hemail Hqty Hrnd. split; [done |].
  pose proof (positiveInteger_quantity _ Hqty) as (_ & _ & Hpos & _).
  pose proof (totalPossible_pos st) as Hmax.
  assert (0 <= wantCount (qty st) <= 5000) as Hwant.
  { unfold wantCount. lia. }
  assert (exists fuel picks,
            maskPicks fuel rnd (totalPossible st) (wantCount (qty st))
            = Some (Ok picks)) as (fuel & picks & Hpicks).
  { destruct (Z_le_gt_dec (totalPossible st) 100000) as [Hsmall | Hlarge].
    - exists O. eexists. by apply maskPicks_enumeration.
    - assert (100000 < totalPossible st) as Hlt by lia.
      apply Hrnd in Hlt.
      apply (draws_distinct_yields rnd _ _ Hmax), yields_distinct_drawn in Hlt
        as [n Hn].
      assert (totalPossible st <> 0) as Hne by lia.
      destruct (sampleLoop_returns rnd _ _ n 0%nat [] Hne Hn) as [l Hl].
      exists n, l. by rewrite maskPicks_sampling by lia. }
  destruct (maskPicks_sound _ _ _ _ _ Hmax Hwant Hpicks)
    as (picks' & [= <-] & Hnd & Hs & Hlen).
  destruct (mapM_render_total st picks) as [out Hout].
  exists fuel, picks, out. split_and!; try done.
  by rewrite generate_valid, Hpicks, Hout.
Qed.

Lemma generate_masks_witness :
  exists fuel picks out,
    maskPicks fuel (fun i => 4503599627370496 + Z.of_nat i)
      (totalPossible initialState) 10
    = Some (Ok picks)
    /\ Z.of_nat (length picks) = 10
    /\ generate fuel (fun i => 4503599627370496 + Z.of_nat i) initialState
       = Some (Returned, setVariations initialState out).
Proof.
  destruct (generate_masks ref_host (fun i => 4503599627370496 + Z.of_nat i)
              initialState)
    as (_ & fuel & picks & out & Hpicks & _ & _ & Hlen & _ & Hgen).
  - vm_compute. reflexivity.
  - vm_compute. reflexivity.
  - intros _. exists (seq 0 10). split; [vm_compute; discriminate |]. split.
    + repeat constructor; vm_compute; discriminate || reflexivity.
    + apply (bool_decide_unpack _). vm_compute. reflexivity.
  - exists fuel, picks, out. split_and!; [exact Hpicks | exact Hlen | exact Hgen].
Defined.

(** *** What a run that returns has done *)

Lemma want_bounds (n : jsnumber) (want : Z) :
  Number_isFinite n = true -> js_le n (ofZ 0) = false ->
  BigInt_ofNumber (Math_min n (ofZ 5000)) = Ok want ->
  1 <= want <= 5000.
Proof.
  destruct n as [| | | q]; try done. intros _ Hpos. simpl in *.
  unfold Qle_bool in *. simpl in *.
  destruct (Z.leb_spec (Qnum q * 1) (5000 * Z.pos (Qden q))) as [Hle | Hgt]; simpl.
  - destruct (Qis_int q) eqn:Hint; [| done]. intros [= <-].
    pose proof (Qis_int_exact q Hint). nia.
  - intros [= <-]. done.
Qed.

Section Returned.
Context `{H : Host}.

Lemma generate_returned (fuel : nat) (rnd : nat -> Z) (st st' : AppState) :
  generate fuel rnd st = Some (Returned, st') ->
  exists want picks out,
    1 <= want <= 5000
    /\ maskPicks fuel rnd (totalPossible st) want = Some (Ok picks)
    /\ NoDup picks
    /\ in_space (totalPossible st) picks
    /\ mapM (render st) picks = Ok out
    /\ st' = setVariations st out.
Proof.
  unfold generate.
  destruct (RegExp_test EMAIL_REGEX (email st)); simpl; [| done].
  destruct (Number_isFinite (qty st)) eqn:Hfin; simpl; [| done].
  destruct (js_le (qty st) (ofZ 0)) eqn:Hpos; [done |].
  destruct (BigInt_ofNumber _) as [want |] eqn:Hwant; [| done].
  apply want_bounds in Hwant; [| done | done].
  destruct (maskPicks _ _ _ _) as [[picks |] |] eqn:Hpicks; [| done | done].
  fold (render st).
  destruct (mapM (render st) picks) as [out |] eqn:Hout; [| done].
  intros [= <-].
  assert (0 <= want <= 5000) as Hwant' by lia.
  destruct (maskPicks_sound _ _ _ _ _ (totalPossible_pos st) Hwant' Hpicks)
    as (picks' & [= <-] & Hnd & Hs & _).
  by exists want, picks, out.
Qed.

(** The default positions are pairwise distinct indices of ASCII letters. *)
Lemma default_positions (st : AppState) :
  useCustom st = false ->
  NoDup (customPositions st)
  /\ Forall (unit_at isLetter (email st)) (customPositions st).
Proof.
  intros Hc. rewrite customPositions_default by done.
  split; [apply letterPositions_NoDup | apply letterPositions_letters].
Qed.

(** Renderings of distinct masks of the space are distinct when the active
    positions are pairwise distinct letters. *)
Lemma renderings_distinct (st : AppState) (picks : list Z) (out : list jsstring) :
  NoDup (customPositions st) ->
  Forall (unit_at isLetter (email st)) (customPositions st) ->
  NoDup picks -> in_space (totalPossible st) picks ->
  mapM (render st) picks = Ok out ->
  NoDup out.
Proof.
  intros Hnd Hlet Hpicks Hspace.
  assert (Forall (unit_at isAscii (email st)) (customPositions st)) as Hascii.
  { eapply Forall_impl; [exact Hlet |]. intros idx.
    apply unit_at_weaken, isLetter_ascii. }
  rewrite (mapM_total _ (flipLoopA (email st) (customPositions st) 0))
    by (intros; by apply render_ascii).
  intros [= <-]. apply NoDup_fmap_2_strong; [| done].
  intros m1 m2 H1 H2. unfold in_space in Hspace.
  rewrite Forall_forall in Hspace. rewrite totalPossible_pow in Hspace.
  apply flipLoopA_inj; auto.
Qed.

(** A rendering through ASCII positions has the length of the source and its
    units everywhere but at the active positions. *)
Lemma render_frame (st : AppState) (mask : Z) :
  Forall (unit_at isAscii (email st)) (customPositions st) ->
  exists v,
    render st mask = Ok v
    /\ length v = length (email st)
    /\ forall i, i ∉ customPositions st -> v !! i = email st !! i.
Proof.
  intros Hascii. rewrite render_ascii by done. eexists. split; [done |].
  split; [apply length_flipLoopA |]. intros i. apply flipLoopA_frame.
Qed.

End Returned.

(** *** Uniqueness of the variations *)

(** C5 as stated fails: with the custom index list 0,0 the quantity 4 does not
    exceed the space size 4, and the four variations stored are a@b.c, A@b.c,
    A@b.c, a@b.c. *)
Lemma variations_collide_on_custom_indexes :
  wantCount (qty st_twice) <= totalPossible st_twice
  /\ generate 0 (fun _ => 0) st_twice
     = Some (Returned,
         setVariations st_twice
           [js "a@b.c"; js "A@b.c"; js "A@b.c"; js "a@b.c"])
  /\ ~ NoDup [js "a@b.c"; js "A@b.c"; js "A@b.c"; js "a@b.c"].
Proof.
  split; [vm_compute; discriminate |]. split; [vm_compute; reflexivity |].
  intros Hnd. apply NoDup_cons in Hnd as [_ Hnd].
  apply NoDup_cons in Hnd as [Hin _]. apply Hin. left.
Qed.

Example variations_collide_on_non_letter :
  generate 0 (fun _ => 0) st_at_sign
  = Some (Returned, setVariations st_at_sign [js "a@b.c"; js "a@b.c"]).
Proof. vm_compute. reflexivity. Qed.

(** C5, amended. The variations a call to [generate] stores are pairwise
    distinct whenever the active positions are pairwise distinct indices of
    ASCII letters, which the default letter positions always are; the
    quantity does not matter. *)
Theorem variations_distinct :
  forall (H : Host) (fuel : nat) (rnd : nat -> Z) (st st' : AppState),
    useCustom st = false
    \/ (NoDup (customPositions st)
        /\ Forall (unit_at isLetter (email st)) (customPositions st)) ->
    generate fuel rnd st = Some (Returned, st') ->
    NoDup (variations st').
Proof.
  intros H fuel rnd st st' Hpos Hgen.
  assert (NoDup (customPositions st)
          /\ Forall (unit_at isLetter (email st)) (customPositions st))
    as [Hnd Hlet].
  { destruct Hpos as [Hdefault | Hcustom]; [by apply default_positions | done]. }
  apply generate_returned in Hgen
    as (want & picks & out & _ & _ & Hpicks & Hspace & Hout & ->).
  simpl. by eapply renderings_distinct.
Qed.

Lemma variations_distinct_witness :
  exists st',
    generate 20 (fun i => Z.of_nat i * 1234567) initialState
    = Some (Returned, st')
    /\ length (variations st') = 10%nat
    /\ NoDup (variations st').
Proof.
  eexists. split; [vm_compute; reflexivity |]. split; [reflexivity |].
  apply (variations_distinct ref_host 20 (fun i => Z.of_nat i * 1234567)
           initialState).
  - left. reflexivity.
  - vm_compute. reflexivity.
Defined.

(** *** The frame of a rendering *)

(** On every host: flipping U+00DF writes the two units of SS into one cell. *)
Lemma flipCases_sharp_s `{H : Host} :
  flipCases [223; 64; 98; 46; 99] [0%nat] 1 = Ok [83; 83; 64; 98; 46; 99].
Proof.
  unfold flipCases. simpl. unfold toggle. rewrite toUpperCase_sharp_s.
  destruct (decide ([223] = [83; 83])) as [Heq | _]; [discriminate Heq | done].
Qed.

(** C6 as stated fails: with the custom index 0 on a source that starts with
    U+00DF, the second variation stored is SS@b.c, one unit longer than the
    source, and index 1, which is not an active position, holds S where the
    source has the at sign. *)
Lemma variation_longer_than_source :
  generate 0 (fun _ => 0) st_sharp_s
  = Some (Returned,
      setVariations st_sharp_s [[223; 64; 98; 46; 99]; js "SS@b.c"])
  /\ length (js "SS@b.c") <> length (email st_sharp_s)
  /\ (1%nat ∉ customPositions st_sharp_s)
  /\ (js "SS@b.c" !! 1%nat) <> (email st_sharp_s !! 1%nat).
Proof.
  split; [vm_compute; reflexivity |]. split; [vm_compute; discriminate |].
  split; [| vm_compute; discriminate].
  intros Hin. vm_compute in Hin. apply list_elem_of_singleton in Hin. discriminate.
Qed.

(** C6, amended. When every active position holds an ASCII unit, as with the
    default letter positions, every rendering, and so every variation that
    [generate] stores, has the length of the source and the source's unit at
    every index that is not an active position. *)
Theorem variations_framed :
  forall (H : Host) (fuel : nat) (rnd : nat -> Z) (st st' : AppState),
    useCustom st = false
    \/ Forall (unit_at isAscii (email st)) (customPositions st) ->
    (forall mask,
       exists v, render st mask = Ok v /\ framed st (customPositions st) v)
    /\ (generate fuel rnd st = Some (Returned, st') ->
        Forall (framed st (customPositions st)) (variations st')).
Proof.
  intros H fuel rnd st st' Hpos.
  assert (Forall (unit_at isAscii (email st)) (customPositions st)) as Hascii.
  { destruct Hpos as [Hdefault | Hcustom]; [| done].
    destruct (default_positions st Hdefault) as [_ Hlet].
    eapply Forall_impl; [exact Hlet |]. intros idx.
    apply unit_at_weaken, isLetter_ascii. }
  split.
  - intros mask. by apply render_frame.
  - intros Hgen. apply generate_returned in Hgen
      as (want & picks & out & _ & _ & _ & _ & Hout & ->).
    simpl. clear Hpos. revert out Hout.
    induction picks as [| m picks IH]; intros out; simpl.
    + intros [= <-]. constructor.
    + destruct (render_frame st m Hascii) as (v & -> & Hv). simpl.
      destruct (mapM (render st) picks) as [vs |]; simpl; [| done].
      intros [= <-]. constructor; [done | by apply IH].
Qed.

Lemma variations_framed_witness :
  exists st',
    generate 0 (fun _ => 0) st_at_sign = Some (Returned, st')
    /\ Forall (framed st_at_sign (customPositions st_at_sign)) (variations st').
Proof.
  eexists. split; [vm_compute; reflexivity |].
  apply (variations_framed ref_host 0 (fun _ => 0) st_at_sign).
  - right. repeat constructor. exists 64. split; reflexivity.
  - vm_compute. reflexivity.
Defined.

(** *** The quantity check *)

(** C7 as stated fails: 5000.5 is no integer, and [generate] accepts it: it
    caps it to 5000 and stores the 8 variations of the space. *)
Lemma fractional_quantity_accepted :
  positiveInteger (qty st_fraction) = false
  /\ generate 0 (fun _ => 0) st_fraction
     = Some (Returned,
         setVariations st_fraction
           [js "a@b.c"; js "A@b.c"; js "a@B.c"; js "A@B.c";
            js "a@b.C"; js "A@b.C"; js "a@B.C"; js "A@B.C"]).
Proof. split; vm_compute; reflexivity. Qed.

(** A fraction below the cap passes the check as well; there [BigInt] throws. *)
Example fractional_quantity_throws :
  generate 0 (fun _ => 0)
    {| email := js "a@b.c"; qty := Finite (5 # 2); variations := [];
       useCustom := false; customIndexes := [] |}
  = Some (Thrown RangeError,
      {| email := js "a@b.c"; qty := Finite (5 # 2); variations := [];
         useCustom := false; customIndexes := [] |}).
Proof. vm_compute. reflexivity. Qed.

(** C7, amended. If the quantity is NaN, infinite, zero or negative,
    [generate] alerts and returns before any mask is chosen or rendered (no
    draw is used, whatever the fuel) and leaves the state as it was; on an
    email-shaped source the alert is the quantity message. *)
Theorem generate_quantity_check :
  forall (H : Host) (fuel : nat) (rnd : nat -> Z) (st : AppState),
    Number_isFinite (qty st) = false \/ js_le (qty st) (ofZ 0) = true ->
    exists msg,
      generate fuel rnd st = Some (Alerted msg, st)
      /\ (RegExp_test EMAIL_REGEX (email st) = true -> msg = msg_quantity).
Proof.
  intros H fuel rnd st Hqty. unfold generate.
  destruct (RegExp_test EMAIL_REGEX (email st)); simpl.
  - exists msg_quantity. split; [| done].
    destruct Hqty as [-> | ->]; [done |]. by rewrite orb_true_r.
  - by exists msg_email.
Qed.

Lemma generate_quantity_check_witness :
  exists msg,
    generate 0 (fun _ => 0)
      {| email := js "a@b.c"; qty := ofZ (-3); variations := [js "kept"];
         useCustom := false; customIndexes := [] |}
    = Some (Alerted msg,
        {| email := js "a@b.c"; qty := ofZ (-3); variations := [js "kept"];
           useCustom := false; customIndexes := [] |})
    /\ msg = msg_quantity.
Proof.
  destruct (generate_quantity_check ref_host 0 (fun _ => 0)
              {| email := js "a@b.c"; qty := ofZ (-3); variations := [js "kept"];
                 useCustom := false; customIndexes := [] |})
    as (msg & Hgen & Hmsg).
  - right. vm_compute. reflexivity.
  - exists msg. split; [exact Hgen |]. apply Hmsg. vm_compute. reflexivity.
Defined.

(** *** Sampling mode *)

(** Anything that holds of every candidate and of the set the loop starts
    from holds of the masks it returns. *)
Lemma sampleLoop_invariant (P : Z -> Prop) (rnd : nat -> Z)
    (maxExclusive k : Z) (fuel : nat) :
  forall (i : nat) (set l : list Z),
    (forall j, P (pickOf (rnd j) maxExclusive)) ->
    Forall P set ->
    sampleLoop fuel rnd i set maxExclusive k = Some (Ok l) ->
    Forall P l.
Proof.
  induction fuel as [| fuel IH]; intros i set l Hpick Hset; simpl.
  - destruct (Z.of_nat (length set) <? k); [done | by intros [= <-]].
  - destruct (Z.of_nat (length set) <? k); [| by intros [= <-]].
    destruct (maxExclusive =? 0); [done |].
    apply IH; [done |]. unfold Set_add. case_decide; [done |].
    apply Forall_app. split; [done |]. apply Forall_singleton, Hpick.
Qed.

(** A constant random source: the loop makes no progress past one mask. *)
Example sampling_stalls_on_constant_source :
  generate 1000 (fun _ => 7) initialState = None.
Proof. vm_compute. reflexivity. Qed.

Example sampling_returns :
  sampleUniqueBigInt 4 (fun i => Z.of_nat i * 3) (2 ^ 65) 3 = Some (Ok [0; 3; 6])
  /\ sampleUniqueBigInt 9 (fun i => Z.of_nat i) 4 4 = Some (Ok [0; 1; 2; 3])
  /\ sampleUniqueBigInt 9 (fun i => Z.of_nat i) 0 4 = Some (Throw RangeError).
Proof. vm_compute. done. Qed.

(** The helper on its own, called as [generate] never calls it: the space has
    2^17 = 131072 masks, 131073 are asked for, and the random source runs
    through every member of the space; the loop never comes back, with
    whatever fuel. *)
Lemma sampling_past_the_space_never_returns :
  ~ exists fuel r,
      sampleUniqueBigInt fuel (fun i => Z.of_nat i) 131072 131073 = Some r.
Proof.
  intros (fuel & r & Hr). unfold sampleUniqueBigInt in Hr.
  rewrite sampleLoop_exhausted in Hr; [done | lia | lia | constructor | constructor].
Qed.

(** The sampling loop has no cap at the space size of its own. For a space
    of maxExclusive > 0 masks and a count k >= 0 it comes back exactly when the
    random source eventually yields k distinct candidates; what it returns
    then is exactly k pairwise distinct masks of the space; with
    k > maxExclusive it never comes back. [generate] never asks it for that
    many: a run that does not come back is in sampling mode, where the count
    is at most 5000 and the space has more than 100,000 masks. *)
Theorem sampling_without_cap :
  forall (H : Host) (rnd : nat -> Z),
    (forall maxExclusive k,
       0 < maxExclusive -> 0 <= k ->
       ((exists fuel l,
           sampleUniqueBigInt fuel rnd maxExclusive k = Some (Ok l))
        <-> yields_distinct rnd maxExclusive k)
       /\ (forall fuel r,
             sampleUniqueBigInt fuel rnd maxExclusive k = Some r ->
             exists l, r = Ok l /\ NoDup l /\ in_space maxExclusive l
                       /\ Z.of_nat (length l) = k)
       /\ (maxExclusive < k ->
           forall fuel, sampleUniqueBigInt fuel rnd maxExclusive k = None))
    /\ (forall fuel st,
          generate fuel rnd st = None ->
          100000 < totalPossible st
          /\ exists want,
               1 <= want <= 5000 /\ want < totalPossible st
               /\ sampleUniqueBigInt fuel rnd (totalPossible st) want = None).
Proof.
  intros H rnd. split.
  - intros maxExclusive k Hmax Hk. unfold sampleUniqueBigInt. split_and!.
    + rewrite yields_distinct_drawn. split.
      * intros (fuel & l & Hl). exists fuel. by eapply sampleLoop_returned.
      * intros [n Hn]. exists n. apply sampleLoop_returns; [lia | done].
    + intros fuel r Hr.
      eapply sampleLoop_sound; [done | constructor | constructor | simpl; lia | done].
    + intros Hlt fuel.
      apply sampleLoop_exhausted; [done | done | constructor | constructor].
  - intros fuel st. unfold generate.
    destruct (RegExp_test EMAIL_REGEX (email st)); simpl; [| done].
    destruct (Number_isFinite (qty st)) eqn:Hfin; simpl; [| done].
    destruct (js_le (qty st) (ofZ 0)) eqn:Hpos; [done |].
    destruct (BigInt_ofNumber _) as [want |] eqn:Hwant; [| done].
    apply want_bounds in Hwant; [| done | done].
    destruct (Z_le_gt_dec (totalPossible st) 100000) as [Hsmall | Hlarge].
    + rewrite maskPicks_enumeration by done.
      by destruct (mapM _ _).
    + rewrite maskPicks_sampling by lia.
      destruct (sampleUniqueBigInt _ _ _ _) as [[picks |] |] eqn:Hs.
      * by destruct (mapM _ _).
      * done.
      * intros _. split; [lia |]. exists want. split_and!; [lia | lia | lia | done].
Qed.



(** *** The range of a candidate *)

Lemma pickOf_le (r maxExclusive : Z) :
  0 < maxExclusive -> 0 <= r < 2 ^ 64 -> 0 <= pickOf r maxExclusive <= r.
Proof.
  intros Hm Hr. unfold pickOf, BigInt_asUintN.
  rewrite (Z.mod_small r) by lia. rewrite Z.rem_mod_nonneg by lia.
  pose proof (Z.mod_pos_bound r maxExclusive Hm).
  pose proof (Z.mod_le r maxExclusive). lia.
Qed.

(** In sampling mode a letter past the 64th active position is never
    flipped: its bit is clear in every candidate. *)
Lemma sampled_high_positions_fixed `{H : Host} (fuel : nat) (rnd : nat -> Z)
    (st st' : AppState) (j idx : nat) :
  100000 < totalPossible st ->
  NoDup (customPositions st) ->
  Forall (unit_at isAscii (email st)) (customPositions st) ->
  customPositions st !! j = Some idx -> (64 <= j)%nat ->
  generate fuel rnd st = Some (Returned, st') ->
  Forall (fun v => v !! idx = email st !! idx) (variations st').
Proof.
  intros Hlarge Hnd Hascii Hj Hge Hgen.
  apply generate_returned in Hgen
    as (want & picks & out & _ & Hpicks & _ & _ & Hout & ->).
  rewrite maskPicks_sampling in Hpicks by done.
  apply (sampleLoop_invariant (fun m => 0 <= m < 2 ^ 64)) in Hpicks;
    [| intros i; apply pickOf_below_2_64; lia | constructor].
  rewrite (mapM_total _ (flipLoopA (email st) (customPositions st) 0)) in Hout
    by (intros; by apply render_ascii).
  injection Hout as <-. simpl. apply Forall_fmap, Forall_forall.
  intros m Hm. eapply Forall_forall in Hpicks; [| exact Hm]. simpl.
  rewrite (flipLoopA_at _ m _ 0 j idx Hnd Hj).
  replace (Z.testbit m (0 + Z.of_nat j)) with false.
  { by destruct (email st !! idx). }
  symmetry. rewrite <- (Z.mod_small m (2 ^ 64)) by lia.
  apply Z.mod_pow2_bits_high. lia.
Qed.

(** C3, which the code falls short of. For the 65-letter source the space is [0, 2^65),
    and no candidate is ever the mask 2^64, whatever [Math.random] gives: a
    candidate is a 64-bit value reduced modulo the space. Every variation
    sampled for that source keeps its last letter as it is. With what
    [Math.floor(Math.random() * Number.MAX_SAFE_INTEGER)] can give, the masks
    sampled from any space are below 2^53. *)
Theorem candidates_are_64_bit :
  forall (H : Host) (rnd : nat -> Z),
    RegExp_test EMAIL_REGEX (email st_65_letters) = true
    /\ totalPossible st_65_letters = 2 ^ 65
    /\ (forall r, pickOf r (totalPossible st_65_letters) <> 2 ^ 64)
    /\ (forall fuel st',
          generate fuel rnd st_65_letters = Some (Returned, st') ->
          Forall (fun v => v !! 66%nat = email st_65_letters !! 66%nat)
            (variations st'))
    /\ ((forall i, 0 <= rnd i < MAX_SAFE_INTEGER) ->
        forall fuel maxExclusive k l,
          0 < maxExclusive ->
          sampleUniqueBigInt fuel rnd maxExclusive k = Some (Ok l) ->
          Forall (fun mask => 0 <= mask < 2 ^ 53) l).
Proof.
  intros H rnd.
  assert (totalPossible st_65_letters = 2 ^ 65) as Htot.
  { vm_compute. reflexivity. }
  split; [vm_compute; reflexivity |]. split; [exact Htot |]. split_and!.
  - intros r. rewrite Htot.
    pose proof (pickOf_below_2_64 r (2 ^ 65) ltac:(lia)). lia.
  - intros fuel st'.
    destruct (default_positions st_65_letters eq_refl) as [Hnd Hlet].
    apply (sampled_high_positions_fixed fuel rnd st_65_letters st' 64%nat 66%nat).
    + rewrite Htot. lia.
    + exact Hnd.
    + eapply Forall_impl; [exact Hlet |]. intros idx.
      apply unit_at_weaken, isLetter_ascii.
    + vm_compute. reflexivity.
    + lia.
  - intros Hrnd fuel maxExclusive k l Hmax Hl. unfold sampleUniqueBigInt in Hl.
    eapply (sampleLoop_invariant (fun m => 0 <= m < 2 ^ 53)); [| | exact Hl].
    + intros j. specialize (Hrnd j). unfold MAX_SAFE_INTEGER in Hrnd.
      pose proof (pickOf_le (rnd j) maxExclusive Hmax ltac:(lia)). lia.
    + constructor.
Qed.

Example sampling_65_letters :
  exists st',
    generate 10 (fun i => 2 ^ 52 + Z.of_nat i) st_65_letters
    = Some (Returned, st')
    /\ length (variations st') = 10%nat.
Proof. eexists. split; [vm_compute; reflexivity | reflexivity]. Qed.

(** ** Further properties of the code *)

Example totalDisplay_examples :
  totalDisplay initialState = js "33,554,432"
  /\ totalDisplay st_ab = js "4"
  /\ totalDisplay st_65_letters = js "36,893,488,147,419,103,232"
  /\ replaceSeparators None (js "x1234 12345_123456")
     = js "x1,234 12,345_,123,456".
Proof. vm_compute. done. Qed.

(** *** [letterPositions] *)

Lemma letterPositions_from_sorted (str : jsstring) :
  forall i, StronglySorted lt (letterPositions_from i str).
Proof.
  induction str as [| ch rest IH]; intros i; simpl; [constructor |].
  destruct (isLetter ch); [| apply IH].
  constructor; [apply IH |].
  apply Forall_forall. intros idx Hidx%letterPositions_from_spec. lia.
Qed.

(** X1. [letterPositions] lists exactly the indices that hold an ASCII
    letter, in strictly increasing order; so there are at most as many as the
    string has units. *)
Theorem letterPositions_exact :
  forall (str : jsstring),
    StronglySorted lt (letterPositions str)
    /\ (forall idx,
          idx ∈ letterPositions str <->
          exists c, str !! idx = Some c
                    /\ (65 <= c <= 90 \/ 97 <= c <= 122))
    /\ (length (letterPositions str) <= length str)%nat.
Proof.
  intros str. split; [apply letterPositions_from_sorted |]. split.
  - intros idx. unfold letterPositions.
    rewrite letterPositions_from_spec, Nat.sub_0_r. unfold unit_at, isLetter.
    split.
    + intros [_ (c & Hc & Hl)]. exists c. split; [done | lia].
    + intros (c & Hc & Hl). split; [lia |]. exists c. split; [done | lia].
  - assert (letterPositions str ⊆+ seq 0 (length str)) as Hsub.
    { apply NoDup_submseteq; [apply letterPositions_NoDup |].
      intros idx Hidx. apply elem_of_seq.
      pose proof (letterPositions_letters str) as Hall.
      rewrite Forall_forall in Hall.
      pose proof (unit_at_in_range _ _ _ (Hall idx Hidx)). lia. }
    apply submseteq_length in Hsub. by rewrite length_seq in Hsub.
Qed.

(** *** [EMAIL_REGEX] *)

(** X2. [EMAIL_REGEX.test(s)] holds exactly when [s] contains, anywhere, an
    at sign and later a full stop, with at least one unit before the at sign,
    between the two and after the full stop, none of these units a line
    terminator. The test is not anchored: text around such a part is
    accepted with it. *)
Theorem EMAIL_REGEX_accepts :
  forall (s : jsstring),
    (RegExp_test EMAIL_REGEX s = true <->
     exists pre a b c post,
       s = pre ++ a ++ [64] ++ b ++ [46] ++ c ++ post
       /\ dots a /\ dots b /\ dots c)
    /\ (forall before after,
          RegExp_test EMAIL_REGEX s = true ->
          RegExp_test EMAIL_REGEX (before ++ s ++ after) = true).
Proof.
  intros s. split; [apply EMAIL_REGEX_test_spec |].
  intros before after. rewrite !RegExp_test_spec.
  intros (pre & mid & post & -> & Hmid).
  exists (before ++ pre), mid, (post ++ after).
  split; [by rewrite <- !app_assoc | done].
Qed.

(** *** [flipCases] on any text and any positions *)

Section FlipAny.
Context `{H : Host}.

Lemma flipLoop_bits_ext (positions : list nat) (m1 m2 : Z) :
  forall (arr : list jsstring) (b : Z),
    (forall j, (j < length positions)%nat ->
               Z.testbit m1 (b + Z.of_nat j) = Z.testbit m2 (b + Z.of_nat j)) ->
    0 <= b ->
    flipLoop arr positions b m1 = flipLoop arr positions b m2.
Proof.
  induction positions as [| idx rest IH]; intros arr b Hbits Hb; simpl; [done |].
  rewrite !mask_bit by done.
  pose proof (Hbits 0%nat ltac:(simpl; lia)) as H0.
  rewrite Z.add_0_r in H0. rewrite H0.
  assert (forall arr', flipLoop arr' rest (b + 1) m1
                       = flipLoop arr' rest (b + 1) m2) as Hrest.
  { intros arr'. apply IH; [| lia]. intros j Hj.
    specialize (Hbits (S j) ltac:(simpl; lia)).
    by replace (b + 1 + Z.of_nat j) with (b + Z.of_nat (S j)) by lia. }
  destruct (Z.testbit m2 b); [| done]. by destruct (arr !! idx).
Qed.

Lemma flipLoop_throws (positions : list nat) (mask : Z) :
  forall (arr : list jsstring) (b : Z) (e : jserror),
    0 <= b ->
    flipLoop arr positions b mask = Throw e <->
    e = TypeError
    /\ exists j idx,
         positions !! j = Some idx
         /\ Z.testbit mask (b + Z.of_nat j) = true
         /\ (length arr <= idx)%nat.
Proof.
  induction positions as [| p rest IH]; intros arr b e Hb; simpl.
  - split; [done | by intros [_ (j & idx & Hj & _)]].
  - rewrite mask_bit by done.
    assert (forall arr',
              length arr' = length arr ->
              Z.testbit mask b = false \/ (p < length arr)%nat ->
              flipLoop arr' rest (b + 1) mask = Throw e <->
              e = TypeError
              /\ exists j idx,
                   (p :: rest) !! j = Some idx
                   /\ Z.testbit mask (b + Z.of_nat j) = true
                   /\ (length arr <= idx)%nat) as Hrest.
    { intros arr' Hlen Hhead. rewrite IH by lia. rewrite Hlen.
      split; intros [-> (j & idx & Hj & Hbit & Hidx)]; (split; [done |]).
      - exists (S j), idx. split; [done |]. split; [| done].
        by replace (b + Z.of_nat (S j)) with (b + 1 + Z.of_nat j) by lia.
      - destruct j as [| j].
        + injection Hj as ->. rewrite Z.add_0_r in Hbit.
          destruct Hhead; [congruence | lia].
        + exists j, idx. split; [done |]. split; [| done].
          by replace (b + 1 + Z.of_nat j) with (b + Z.of_nat (S j)) by lia. }
    destruct (Z.testbit mask b) eqn:Hbit.
    + destruct (arr !! p) as [ch |] eqn:Hp.
      * apply Hrest; [apply length_insert |].
        right. by eapply lookup_lt_Some.
      * apply lookup_ge_None in Hp. split.
        -- intros [= <-]. split; [done |]. exists 0%nat, p.
           by rewrite Z.add_0_r.
        -- by intros [-> _].
    + apply Hrest; [done | by left].
Qed.

End FlipAny.

Example flipCases_outside :
  flipCases (js "ab") [0; 5]%nat 2 = Throw TypeError
  /\ flipCases (js "ab") [0; 5]%nat 1 = Ok (js "Ab")
  /\ flipCases (js "ab") [0; 5]%nat 5 = Ok (js "Ab").
Proof. vm_compute. done. Qed.

(** X3. [flipCases] reads only the bits of the mask that have a position: a
    mask and its remainder modulo 2^n, n the number of positions, give the
    same result, whatever the text, the positions and the sign of the mask. *)
Theorem flipCases_low_bits :
  forall (H : Host) (base : jsstring) (positions : list nat) (mask : Z),
    flipCases base positions mask
    = flipCases base positions (mask mod 2 ^ Z.of_nat (length positions)).
Proof.
  intros H base positions mask. unfold flipCases. f_equal.
  apply flipLoop_bits_ext; [| done].
  intros j Hj. rewrite Z.add_0_l.
  symmetry. apply Z.mod_pow2_bits_low. lia.
Qed.

(** X4. [flipCases] throws exactly when a position whose bit is set lies
    outside the text, and then what it throws is a TypeError; positions
    outside the text whose bit is clear are never read. *)
Theorem flipCases_throws :
  forall (H : Host) (base : jsstring) (positions : list nat) (mask : Z)
         (e : jserror),
    flipCases base positions mask = Throw e <->
    e = TypeError
    /\ exists j idx,
         positions !! j = Some idx
         /\ Z.testbit mask (Z.of_nat j) = true
         /\ (length base <= idx)%nat.
Proof.
  intros H base positions mask e.
  pose proof (flipLoop_throws positions mask (split_chars base) 0 e ltac:(done))
    as Hloop.
  rewrite length_split_chars in Hloop. rewrite <- Hloop.
  unfold flipCases.
  destruct (flipLoop (split_chars base) positions 0 mask); simpl.
  - split; intros Heq; discriminate Heq.
  - split; intros [= ->]; done.
Qed.

(** *** [flipCases] on ASCII positions: what a mask does *)

Lemma toggleA_involutive (c : codeunit) : toggleA (toggleA c) = c.
Proof. unfold toggleA, isLower, isUpper. repeat case_match; lia. Qed.

Lemma toggleA_non_letter (c : codeunit) : isLetter c = false -> toggleA c = c.
Proof. unfold toggleA, isLetter, isLower, isUpper. repeat case_match; lia. Qed.

(** The unit at [i] after the loop: toggled when the set bits name [i] an odd
    number of times. *)
Lemma flipLoopA_lookup (positions : list nat) (mask : Z) :
  forall (s : jsstring) (b : Z) (i : nat),
    flipLoopA s positions b mask !! i
    = (if flips positions b mask i then toggleA else id) <$> s !! i.
Proof.
  induction positions as [| idx rest IH]; intros s b i; simpl.
  - by destruct (s !! i).
  - destruct (Z.testbit mask b); rewrite IH.
    + destruct (decide (idx = i)) as [-> | Hne].
      * rewrite bool_decide_eq_true_2 by done. rewrite list_lookup_alter_eq.
        destruct (flips rest (b + 1) mask i), (s !! i); simpl; try done.
        by rewrite toggleA_involutive.
      * rewrite bool_decide_eq_false_2 by done.
        by rewrite list_lookup_alter_ne.
    + by rewrite andb_false_r.
Qed.

Lemma flips_lxor (positions : list nat) (m1 m2 : Z) (i : nat) :
  forall b,
    flips positions b (Z.lxor m1 m2) i
    = xorb (flips positions b m1 i) (flips positions b m2 i).
Proof.
  induction positions as [| idx rest IH]; intros b; simpl; [done |].
  rewrite IH, Z.lxor_spec.
  by destruct (bool_decide (idx = i)), (Z.testbit m1 b), (Z.testbit m2 b),
    (flips rest (b + 1) m1 i), (flips rest (b + 1) m2 i).
Qed.

Lemma flips_not_in (positions : list nat) (mask : Z) (i : nat) :
  forall b, i ∉ positions -> flips positions b mask i = false.
Proof.
  induction positions as [| idx rest IH]; intros b Hi; simpl; [done |].
  apply not_elem_of_cons in Hi as [Hne Hi].
  rewrite IH by done. by rewrite bool_decide_eq_false_2.
Qed.

Lemma flipLoopA_ascii (positions : list nat) (mask : Z) (s : jsstring) (b : Z)
    (idx : nat) :
  unit_at isAscii s idx -> unit_at isAscii (flipLoopA s positions b mask) idx.
Proof.
  intros (c & Hc & Ha). unfold unit_at. rewrite flipLoopA_lookup, Hc.
  destruct (flips positions b mask idx); simpl.
  - exists (toggleA c). split; [done | by apply toggleA_ascii].
  - by exists c.
Qed.

(** X5. With pairwise distinct positions that hold ASCII units, bit j of the
    mask decides the unit at positions[j], and nothing else does: the unit
    there is the source's with its case swapped (a lower-case letter 32 down,
    an upper-case letter 32 up, any other unit as it is) when the bit is set,
    and the source's own when it is clear. *)
Theorem flipCases_bit :
  forall (H : Host) (base : jsstring) (positions : list nat) (mask : Z)
         (j idx : nat),
    NoDup positions ->
    Forall (unit_at isAscii base) positions ->
    positions !! j = Some idx ->
    exists v c,
      flipCases base positions mask = Ok v
      /\ base !! idx = Some c
      /\ v !! idx
         = Some (if Z.testbit mask (Z.of_nat j)
                 then (if isLower c then c - 32
                       else if isUpper c then c + 32 else c)
                 else c).
Proof.
  intros H base positions mask j idx Hnd Hascii Hj.
  assert (unit_at isAscii base idx) as (c & Hc & _).
  { eapply Forall_forall; [exact Hascii |]. by eapply list_elem_of_lookup_2. }
  exists (flipLoopA base positions 0 mask), c.
  split; [by apply flipCases_ascii |]. split; [done |].
  rewrite (flipLoopA_at positions mask base 0 j idx Hnd Hj), Hc, Z.add_0_l.
  by destruct (Z.testbit mask (Z.of_nat j)).
Qed.

Lemma flipCases_bit_witness :
  exists v c,
    flipCases (js "a@b.c") [4; 0]%nat 1 = Ok v
    /\ js "a@b.c" !! 4%nat = Some c
    /\ v !! 4%nat = Some (c - 32).
Proof.
  destruct (flipCases_bit ref_host (js "a@b.c") [4; 0]%nat 1 0 4)
    as (v & c & Hv & Hc & Hlookup).
  - apply (bool_decide_unpack _). vm_compute. reflexivity.
  - repeat constructor; eexists; (split; [reflexivity | reflexivity]).
  - reflexivity.
  - exists v, c. split; [exact Hv |]. split; [exact Hc |].
    rewrite Hlookup. injection Hc as <-. reflexivity.
Defined.

(** X6. On ASCII positions masks compose by exclusive or: rendering with m1
    and then rendering the result with m2 is rendering the source with
    m1 xor m2. In particular rendering twice with the same mask gives the
    source back. Positions may repeat. *)
Theorem flipCases_compose :
  forall (H : Host) (base : jsstring) (positions : list nat) (m1 m2 : Z),
    Forall (unit_at isAscii base) positions ->
    exists v,
      flipCases base positions m1 = Ok v
      /\ flipCases v positions m2 = flipCases base positions (Z.lxor m1 m2)
      /\ flipCases v positions m1 = Ok base.
Proof.
  intros H base positions m1 m2 Hascii.
  set (v := flipLoopA base positions 0 m1).
  assert (Forall (unit_at isAscii v) positions) as Hv.
  { eapply Forall_impl; [exact Hascii |]. intros idx. apply flipLoopA_ascii. }
  assert (forall m, flipCases v positions m
                    = flipCases base positions (Z.lxor m1 m)) as Hcomp.
  { intros m. rewrite !flipCases_ascii by done. f_equal.
    apply list_eq. intros i. unfold v.
    rewrite !flipLoopA_lookup, flips_lxor.
    destruct (flips positions 0 m1 i), (flips positions 0 m i), (base !! i);
      simpl; try done.
    by rewrite toggleA_involutive. }
  exists v. split; [by apply flipCases_ascii |]. split; [apply Hcomp |].
  by rewrite Hcomp, Z.lxor_nilpotent, flipCases_mask_0.
Qed.

Lemma flipCases_compose_witness :
  exists v,
    flipCases (js "ab@c.d") [0; 1; 1; 3]%nat 5 = Ok v
    /\ flipCases v [0; 1; 1; 3]%nat 12
       = flipCases (js "ab@c.d") [0; 1; 1; 3]%nat 9
    /\ flipCases v [0; 1; 1; 3]%nat 5 = Ok (js "ab@c.d").
Proof.
  apply (flipCases_compose ref_host (js "ab@c.d") [0; 1; 1; 3]%nat 5 12).
  repeat constructor; eexists; (split; [reflexivity | reflexivity]).
Defined.

(** X7. Positions that hold ASCII units other than letters (digits, the at
    sign, the full stop, ...) are inert: whatever the mask, the rendering is
    the source. *)
Theorem flipCases_non_letters :
  forall (H : Host) (base : jsstring) (positions : list nat) (mask : Z),
    Forall (unit_at (fun c => isAscii c && negb (isLetter c)) base) positions ->
    flipCases base positions mask = Ok base.
Proof.
  intros H base positions mask Hpos.
  rewrite flipCases_ascii.
  - f_equal. apply list_eq. intros i. rewrite flipLoopA_lookup.
    destruct (flips positions 0 mask i) eqn:Hflips; [| by destruct (base !! i)].
    destruct (decide (i ∈ positions)) as [Hin | Hout].
    + eapply Forall_forall in Hpos as (c & Hc & Hl); [| exact Hin].
      apply andb_prop in Hl as [_ Hl]. apply negb_true_iff in Hl.
      rewrite Hc. simpl. by rewrite toggleA_non_letter.
    + by rewrite flips_not_in in Hflips.
  - eapply Forall_impl; [exact Hpos |]. intros idx.
    apply unit_at_weaken. by intros c [Ha _]%andb_prop.
Qed.

Lemma flipCases_non_letters_witness :
  flipCases (js "a1@b.c") [1; 2; 4; 2]%nat 11 = Ok (js "a1@b.c").
Proof.
  apply (flipCases_non_letters ref_host).
  repeat constructor; eexists; (split; [reflexivity | reflexivity]).
Defined.

(** *** [customPositions] *)

(** X8. Every active position is an index of the source, with or without a
    custom index list; and the list of active positions is empty only when
    the source has no letter at all. *)
Theorem customPositions_sound :
  forall (H : Host) (st : AppState),
    Forall (fun idx => (idx < length (email st))%nat) (customPositions st)
    /\ (customPositions st = [] -> letterPositions (email st) = []).
Proof.
  intros H st. split; [apply customPositions_in_range |].
  unfold customPositions, allLetterPositions.
  destruct (negb (useCustom st)); [done |].
  by destruct (customParts st).
Qed.

Lemma split_run_token (t : jsstring) :
  forall (cur rest : jsstring) (in_run : bool),
    Forall (fun c => isSeparator c = false) t ->
    split_run (t ++ rest) cur in_run
    = split_run rest (rev t ++ cur) (in_run && bool_decide (t = [])).
Proof.
  induction t as [| c t IH]; intros cur rest in_run Ht; simpl.
  - by rewrite andb_true_r.
  - apply Forall_cons in Ht as [Hc Ht]. rewrite Hc, IH by done.
    simpl. rewrite andb_false_r. by rewrite <- app_assoc.
Qed.

Lemma split_run_separators (sep : jsstring) :
  forall (rest : jsstring),
    Forall (fun c => isSeparator c = true) sep ->
    split_run (sep ++ rest) [] true = split_run rest [] true.
Proof.
  induction sep as [| c sep IH]; intros rest Hsep; simpl; [done |].
  apply Forall_cons in Hsep as [Hc Hsep]. rewrite Hc. by apply IH.
Qed.

(** Splitting a written list: the numerals, and an empty piece for a run
    before the first or after the last. *)
Lemma split_run_body (trail : jsstring) (rest : list (jsstring * jsstring)) :
  Forall (fun c => isSeparator c = true) trail ->
  Forall (fun p => fst p <> [] /\ Forall (fun c => isSeparator c = true) (fst p)
                   /\ snd p <> []
                   /\ Forall (fun c => isSeparator c = false) (snd p)) rest ->
  forall (t0 : jsstring) (in_run : bool),
    t0 <> [] -> Forall (fun c => isSeparator c = false) t0 ->
    split_run (t0 ++ concat (map (fun p => fst p ++ snd p) rest) ++ trail)
      [] in_run
    = (t0 :: map snd rest) ++ match trail with [] => [] | _ => [[]] end.
Proof.
  intros Htrail Hrest.
  induction Hrest as [| [sep t] rest (Hne & Hsep & Ht & Hc) _ IH];
    intros t0 in_run Ht0 Hc0; rewrite split_run_token by done;
    rewrite bool_decide_eq_false_2, andb_false_r, app_nil_r by done.
  - simpl. destruct trail as [| c tr]; simpl.
    + by rewrite rev_involutive.
    + apply Forall_cons in Htrail as [-> Htr]. rewrite rev_involutive.
      rewrite <- (app_nil_r tr), split_run_separators by done. done.
  - simpl in *. destruct sep as [| c sep]; [done |].
    apply Forall_cons in Hsep as [Hsc Hsep].
    rewrite <- !app_assoc. cbn [app split_run]. rewrite Hsc, rev_involutive.
    rewrite split_run_separators by done. f_equal. by apply IH.
Qed.

Lemma split_separators_written (lead t0 : jsstring)
    (rest : list (jsstring * jsstring)) (trail : jsstring) :
  Forall (fun c => isSeparator c = true) lead ->
  Forall (fun c => isSeparator c = true) trail ->
  Forall (fun p => fst p <> [] /\ Forall (fun c => isSeparator c = true) (fst p)
                   /\ snd p <> []
                   /\ Forall (fun c => isSeparator c = false) (snd p)) rest ->
  t0 <> [] -> Forall (fun c => isSeparator c = false) t0 ->
  split_separators (writtenList lead t0 rest trail)
  = match lead with [] => [] | _ => [[]] end
    ++ (t0 :: map snd rest) ++ match trail with [] => [] | _ => [[]] end.
Proof.
  intros Hlead Htrail Hrest Ht0 Hc0. unfold split_separators, writtenList.
  destruct lead as [| c lead].
  - by apply split_run_body.
  - apply Forall_cons in Hlead as [Hc Hlead].
    cbn [app split_run]. rewrite Hc. cbn [rev app].
    rewrite split_run_separators by done. f_equal. by apply split_run_body.
Qed.

Lemma forallb_Forall {A} (f : A -> bool) (l : list A) :
  forallb f l = true -> Forall (fun x => f x = true) l.
Proof.
  induction l as [| x l IH]; simpl; [constructor |].
  intros [Hx Hl]%andb_prop. constructor; auto.
Qed.

Lemma isDigit_not_separator (c : codeunit) :
  isDigit c = true -> isSeparator c = false.
Proof. unfold isDigit, isSeparator. lia. Qed.

Lemma isDigit_not_whitespace (c : codeunit) :
  isDigit c = true -> isWhiteSpace c = false.
Proof. unfold isDigit, isWhiteSpace. lia. Qed.

Lemma trim_digits (t : jsstring) : Forall (fun c => isDigit c = true) t -> trim t = t.
Proof.
  intros Ht. unfold trim.
  assert (forall s, Forall (fun c => isDigit c = true) s -> trimStart s = s)
    as Hstart.
  { intros [| c s] Hs; [done |]. apply Forall_cons in Hs as [Hc _].
    simpl. by rewrite isDigit_not_whitespace. }
  rewrite (Hstart t Ht), Hstart; [apply rev_involutive |].
  by apply Forall_rev.
Qed.

Lemma decimal_acc_nonneg (ds : jsstring) :
  forall acc, 0 <= acc -> Forall (fun c => isDigit c = true) ds ->
    0 <= fold_left (fun acc d => 10 * acc + (d - 48)) ds acc.
Proof.
  induction ds as [| d ds IH]; intros acc Hacc Hds; simpl; [done |].
  apply Forall_cons in Hds as [Hd Hds]. apply IH; [| done].
  unfold isDigit in Hd. lia.
Qed.

Lemma customParts_numerals `{H : Host} (st : AppState) (tokens : list jsstring) :
  Forall (indexNumeral (length (email st))) tokens ->
  filter
    (fun n => Is_true (Number_isInteger n && js_le (ofZ 0) n
                       && js_lt n (ofZ (Z.of_nat (length (email st))))))
    (map Number_ofString
       (filter (fun s => Is_true (Boolean_ofString s)) (map trim tokens)))
  = map (fun t => ofZ (decimal t)) tokens.
Proof.
  induction 1 as [| t tokens (Ht & Hd & Hlt & Hsafe) _ IH]; [done |].
  pose proof (forallb_Forall _ _ Hd) as Hd'.
  cbn [map]. rewrite trim_digits by done.
  rewrite filter_cons_True by (by destruct t).
  cbn [map]. rewrite (Number_ofString_decimal t Ht Hd Hsafe).
  pose proof (decimal_acc_nonneg t 0 ltac:(done) Hd') as Hpos.
  fold (decimal t) in Hpos.
  rewrite filter_cons_True.
  - f_equal. apply IH.
  - apply Is_true_eq_left. simpl. unfold Qis_int, Qle_bool. simpl.
    rewrite Z.mod_1_r. simpl.
    apply andb_true_intro. split; [lia |]. apply negb_true_iff. lia.
Qed.

(** X9. A custom index list written as unsigned decimal numerals, each an
    index of the source, each separated from the next by a run of spaces and
    commas of its own, with or without such a run before the first and after
    the last, is taken as it is written: the active positions are the
    numbers, in the order written, repeated if written twice. *)
Theorem customPositions_parsed :
  forall (H : Host) (st : AppState) (lead t0 : jsstring)
         (rest : list (jsstring * jsstring)) (trail : jsstring),
    useCustom st = true ->
    customIndexes st = writtenList lead t0 rest trail ->
    forallb isSeparator lead = true ->
    forallb isSeparator trail = true ->
    Forall (fun p => fst p <> [] /\ forallb isSeparator (fst p) = true) rest ->
    Forall (indexNumeral (length (email st))) (t0 :: map snd rest) ->
    customPositions st
    = map (fun t => Z.to_nat (decimal t)) (t0 :: map snd rest).
Proof.
  intros H st lead t0 rest trail Hcustom Hidx Hlead Htrail Hrest Htok.
  assert (forall t, indexNumeral (length (email st)) t ->
                    t <> [] /\ Forall (fun c => isSeparator c = false) t)
    as Hnum.
  { intros t (Ht & Hd & _). split; [done |].
    eapply Forall_impl; [exact (forallb_Forall _ _ Hd) |].
    apply isDigit_not_separator. }
  assert (customParts st = map (fun t => ofZ (decimal t)) (t0 :: map snd rest))
    as Hparts.
  { unfold customParts. rewrite Hidx, split_separators_written.
    - rewrite !map_app, !filter_app, !map_app, !filter_app.
      rewrite (customParts_numerals st _ Htok).
      by destruct lead, trail; cbn; rewrite ?app_nil_r.
    - by apply forallb_Forall.
    - by apply forallb_Forall.
    - apply Forall_cons in Htok as [_ Htok]. rewrite Forall_fmap in Htok.
      apply Forall_forall. intros p Hp.
      eapply Forall_forall in Hrest as [Hne Hsep]; [| exact Hp].
      eapply Forall_forall in Htok; [| exact Hp].
      destruct (Hnum _ Htok) as [Ht Hc].
      split; [done |]. split; [by apply forallb_Forall | done].
    - apply Forall_cons in Htok as [Ht0 _]. by apply Hnum.
    - apply Forall_cons in Htok as [Ht0 _]. by apply Hnum. }
  unfold customPositions. rewrite Hcustom, Hparts. cbn [negb map].
  f_equal; [unfold toIndex, ofZ, Qfloor; simpl; by rewrite Z.div_1_r |].
  rewrite <- !list_fmap_compose. apply map_ext. intros p. simpl.
  unfold Qfloor. simpl. by rewrite Z.div_1_r.
Qed.

Lemma customPositions_parsed_witness :
  customPositions
    {| email := js "ab@cd.ef"; qty := ofZ 3; variations := [];
       useCustom := true; customIndexes := js " 4, 0 4 ,,7, " |}
  = [4; 0; 4; 7]%nat.
Proof.
  apply (customPositions_parsed ref_host _ (js " ") (js "4")
           [(js ", ", js "0"); (js " ", js "4"); (js " ,,", js "7")]
           (js ", "));
    try reflexivity.
  - repeat constructor; discriminate.
  - repeat constructor; try discriminate; reflexivity.
Defined.

Lemma split_run_units (Q : codeunit -> Prop) (s : jsstring) :
  forall (cur : jsstring) (in_run : bool),
    Forall Q s ->
    Forall (fun c => Q c /\ isSeparator c = false) cur ->
    Forall (Forall (fun c => Q c /\ isSeparator c = false))
      (split_run s cur in_run).
Proof.
  induction s as [| c s IH]; intros cur in_run Hs Hcur; simpl.
  - constructor; [by apply Forall_rev | constructor].
  - apply Forall_cons in Hs as [Hc Hs].
    destruct (isSeparator c) eqn:Hsep.
    + destruct in_run; [by apply IH |].
      constructor; [by apply Forall_rev | by apply IH].
    + apply IH; [done |]. by constructor.
Qed.

Lemma trim_whitespace (t : jsstring) :
  Forall (fun c => isWhiteSpace c = true) t -> trim t = [].
Proof.
  intros Ht. unfold trim.
  assert (trimStart t = []) as ->; [| done].
  induction Ht as [| c t Hc _ IH]; simpl; [done |]. by rewrite Hc.
Qed.

Lemma customPositions_blank `{H : Host} (st : AppState) :
  useCustom st = false
  \/ Forall (fun c => isSeparator c || isWhiteSpace c = true)
       (customIndexes st) ->
  customPositions st = letterPositions (email st).
Proof.
  intros [Hoff | Hblank]; [by apply customPositions_default |].
  unfold customPositions, allLetterPositions.
  destruct (negb (useCustom st)); [done |].
  assert (customParts st = []) as ->; [| done].
  unfold customParts, split_separators.
  pose proof (split_run_units _ (customIndexes st) [] false Hblank
                ltac:(constructor)) as Htokens.
  induction Htokens as [| t tokens Ht _ IH]; [done |].
  cbn [map]. rewrite trim_whitespace.
  - by rewrite filter_cons_False by (by intros []).
  - eapply Forall_impl; [exact Ht |]. intros c [Hc Hsep].
    by rewrite Hsep in Hc.
Qed.

(** X10. A custom index list that holds nothing but spaces, commas and other
    white space (the empty list included) names no index, and the active
    positions fall back to the letter positions; so do they when the custom
    mode is off. *)
Theorem customPositions_fallback :
  forall (H : Host) (st : AppState),
    useCustom st = false
    \/ Forall (fun c => isSeparator c || isWhiteSpace c = true)
         (customIndexes st) ->
    customPositions st = letterPositions (email st).
Proof. intros H st. apply customPositions_blank. Qed.

Lemma customPositions_fallback_witness :
  customPositions
    {| email := js "ab@cd.ef"; qty := ofZ 3; variations := [];
       useCustom := true; customIndexes := 32 :: 44 :: 9 :: js ", ," |}
  = [0; 1; 3; 4; 6; 7]%nat.
Proof.
  apply (customPositions_fallback ref_host). right.
  repeat constructor.
Defined.

(** *** [generate]: how it ends *)

Section Outcomes.
Context `{H : Host}.

Lemma generate_same_source (fuel : nat) (rnd : nat -> Z) (st : AppState)
    (vs : list jsstring) :
  generate fuel rnd (setVariations st vs)
  = match generate fuel rnd st with
    | Some (Returned, st') => Some (Returned, st')
    | Some (c, _) => Some (c, setVariations st vs)
    | None => None
    end.
Proof.
  unfold generate, totalPossible, lettersCount, customPositions, customParts,
    allLetterPositions. simpl.
  destruct (RegExp_test EMAIL_REGEX (email st)); simpl; [| done].
  destruct (negb (Number_isFinite (qty st)) || js_le (qty st) (ofZ 0)); [done |].
  destruct (BigInt_ofNumber _); [| done].
  destruct (maskPicks _ _ _ _) as [[picks |] |]; [| done | done].
  by destruct (mapM _ picks).
Qed.

Lemma generate_state (fuel : nat) (rnd : nat -> Z) (st st' : AppState)
    (c : completion) :
  generate fuel rnd st = Some (c, st') ->
  match c with
  | Returned => exists out, st' = setVariations st out
  | _ => st' = st
  end.
Proof.
  unfold generate.
  destruct (RegExp_test EMAIL_REGEX (email st)); simpl; [| by intros [= <- <-]].
  destruct (negb (Number_isFinite (qty st)) || js_le (qty st) (ofZ 0));
    [by intros [= <- <-] |].
  destruct (BigInt_ofNumber _); [| by intros [= <- <-]].
  destruct (maskPicks _ _ _ _) as [[picks |] |]; [| by intros [= <- <-] | done].
  destruct (mapM _ picks) as [out |]; intros [= <- <-]; [by exists out | done].
Qed.

End Outcomes.

(** X11. [generate] writes nothing but the list of variations, and only when
    it returns normally: after an alert or an exception the state is the one
    before, and after a normal return the source, the quantity and the
    position settings are the ones before. The list shown before plays no
    part: the same run from a state that differs only in that list, for
    instance after [reset], stores the same list. *)
Theorem generate_overwrites :
  forall (H : Host) (fuel : nat) (rnd : nat -> Z) (st st' : AppState)
         (c : completion),
    generate fuel rnd st = Some (c, st') ->
    email st' = email st /\ qty st' = qty st
    /\ useCustom st' = useCustom st /\ customIndexes st' = customIndexes st
    /\ (c <> Returned -> st' = st)
    /\ (c = Returned ->
        forall vs,
          generate fuel rnd (setVariations st vs) = Some (Returned, st')
          /\ generate fuel rnd (reset st') = Some (Returned, st')).
Proof.
  intros H fuel rnd st st' c Hgen.
  pose proof (generate_state fuel rnd st st' c Hgen) as Hst.
  assert (email st' = email st /\ qty st' = qty st
          /\ useCustom st' = useCustom st
          /\ customIndexes st' = customIndexes st) as (? & ? & ? & ?).
  { destruct c; [destruct Hst as [out ->]; done | by subst | by subst]. }
  split_and!; try done.
  - intros Hc. by destruct c.
  - intros -> vs. destruct Hst as [out ->].
    assert (forall ws, generate fuel rnd (setVariations st ws)
                       = Some (Returned, setVariations st out)) as Hany.
    { intros ws. by rewrite generate_same_source, Hgen. }
    split; [apply Hany |]. apply (Hany []).
Qed.

Lemma generate_overwrites_witness :
  generate 0 (fun _ => 0) (setVariations st_at_sign [js "old"])
  = Some (Returned, setVariations st_at_sign [js "a@b.c"; js "a@b.c"]).
Proof.
  destruct (generate_overwrites ref_host 0 (fun _ => 0) st_at_sign
              (setVariations st_at_sign [js "a@b.c"; js "a@b.c"]) Returned)
    as (_ & _ & _ & _ & _ & Hsame).
  - vm_compute. reflexivity.
  - exact (proj1 (Hsame eq_refl [js "old"])).
Defined.

(** X12. [generate] throws in one case only: on an email-shaped source with
    a finite positive quantity that is no integer and is at most 5000, where
    [BigInt] refuses the quantity with a RangeError. It never throws a
    TypeError: rendering never reads outside the source. *)
Theorem generate_throws :
  forall (H : Host) (fuel : nat) (rnd : nat -> Z) (st st' : AppState)
         (e : jserror),
    generate fuel rnd st = Some (Thrown e, st') <->
    e = RangeError /\ st' = st
    /\ RegExp_test EMAIL_REGEX (email st) = true
    /\ Number_isFinite (qty st) = true
    /\ js_le (qty st) (ofZ 0) = false
    /\ js_le (qty st) (ofZ 5000) = true
    /\ Number_isInteger (qty st) = false.
Proof.
  intros H fuel rnd st st' e. unfold generate.
  destruct (RegExp_test EMAIL_REGEX (email st)); simpl;
    [| split; [done | by intros (_ & _ & ? & _)]].
  destruct (Number_isFinite (qty st)) eqn:Hfin; simpl;
    [| split; [done | by intros (_ & _ & _ & ? & _)]].
  destruct (js_le (qty st) (ofZ 0)) eqn:Hpos;
    [split; [done | by intros (_ & _ & _ & _ & ? & _)] |].
  destruct (BigInt_ofNumber _) as [want |] eqn:Hwant.
  - assert (js_le (qty st) (ofZ 5000) = true ->
            Number_isInteger (qty st) = false -> False) as Hno.
    { destruct (qty st) as [| | | q]; try done. simpl in *.
      intros Hle Hint. rewrite Hle in Hwant. simpl in Hwant.
      by rewrite Hint in Hwant. }
    apply want_bounds in Hwant; [| done | done].
    assert (0 <= want <= 5000) as Hwant' by lia.
    destruct (maskPicks _ _ _ _) as [[picks |] |] eqn:Hpicks.
    + fold (render st).
      destruct (mapM_render_total st picks) as [out ->].
      split; [done | intros (_ & _ & _ & _ & _ & ? & ?); by destruct Hno].
    + by destruct (maskPicks_sound _ _ _ _ _ (totalPossible_pos st) Hwant' Hpicks)
        as (? & ? & _).
    + split; [done | intros (_ & _ & _ & _ & _ & ? & ?); by destruct Hno].
  - destruct (qty st) as [| | | q]; try done. simpl in *.
    destruct (Qle_bool q (inject_Z 5000)) eqn:Hle;
      [| vm_compute in Hwant; discriminate Hwant].
    simpl in Hwant. destruct (Qis_int q) eqn:Hint; [done |].
    injection Hwant as <-.
    split; [by intros [= <- <-] | by intros (-> & -> & _)].
Qed.

Section Count.
Context `{H : Host}.

Lemma picks_rendered_length (fuel : nat) (rnd : nat -> Z) (st : AppState)
    (want : Z) (picks : list Z) (out : list jsstring) :
  0 <= want <= 5000 ->
  maskPicks fuel rnd (totalPossible st) want = Some (Ok picks) ->
  mapM (render st) picks = Ok out ->
  Z.of_nat (length out) = Z.min want (totalPossible st).
Proof.
  intros Hwant Hpicks Hout. apply mapM_length in Hout. rewrite Hout.
  by destruct (maskPicks_sound _ _ _ _ _ (totalPossible_pos st) Hwant Hpicks)
    as (picks' & [= <-] & _ & _ & Hl).
Qed.

Lemma generate_returned_email (fuel : nat) (rnd : nat -> Z) (st st' : AppState)
    (c : completion) :
  generate fuel rnd st = Some (c, st') -> c <> Alerted msg_email ->
  RegExp_test EMAIL_REGEX (email st) = true.
Proof.
  unfold generate. destruct (RegExp_test EMAIL_REGEX (email st)); [done |].
  simpl. intros [= <- <-] Hc. done.
Qed.

Lemma generate_returned_length (fuel : nat) (rnd : nat -> Z) (st st' : AppState) :
  positiveInteger (qty st) = true ->
  generate fuel rnd st = Some (Returned, st') ->
  Z.of_nat (length (variations st'))
  = Z.min (wantCount (qty st)) (totalPossible st).
Proof.
  intros Hqty Hgen.
  pose proof (generate_returned_email _ _ _ _ _ Hgen ltac:(done)) as Hemail.
  rewrite generate_valid in Hgen by done.
  pose proof (positiveInteger_quantity _ Hqty) as (_ & _ & Hpos & _).
  destruct (maskPicks _ _ _ _) as [[picks |] |] eqn:Hpicks; [| done | done].
  destruct (mapM (render st) picks) as [out |] eqn:Hout; [| done].
  injection Hgen as <-. simpl.
  eapply picks_rendered_length; [| done | done]. unfold wantCount. lia.
Qed.

End Count.

(** X13. A run that returns stores at least one variation, at most 5000, and
    no more than the space has masks; for a positive integer quantity it
    stores exactly min(quantity, 5000, 2^n) of them, n the number of active
    positions. *)
Theorem generate_count :
  forall (H : Host) (fuel : nat) (rnd : nat -> Z) (st st' : AppState),
    generate fuel rnd st = Some (Returned, st') ->
    1 <= Z.of_nat (length (variations st')) <= 5000
    /\ Z.of_nat (length (variations st')) <= totalPossible st
    /\ (positiveInteger (qty st) = true ->
        Z.of_nat (length (variations st'))
        = Z.min (Z.min (quantityOf (qty st)) 5000)
            (2 ^ Z.of_nat (length (customPositions st)))).
Proof.
  intros H fuel rnd st st' Hgen.
  pose proof (totalPossible_pos st) as Hmax.
  assert (1 <= Z.of_nat (length (variations st')) <= 5000
          /\ Z.of_nat (length (variations st')) <= totalPossible st)
    as [Hcap Hspace].
  { pose proof Hgen as Hgen'. apply generate_returned in Hgen'
      as (want & picks & out & Hwant & Hpicks & _ & _ & Hout & ->).
    simpl. rewrite (picks_rendered_length fuel rnd st want picks out);
      [lia | lia | done | done]. }
  split; [done |]. split; [done |]. intros Hqty.
  rewrite (generate_returned_length fuel rnd st st') by done.
  by rewrite totalPossible_pow.
Qed.

Lemma generate_count_witness :
  generate 0 (fun _ => 0) st_abc_100
  = Some (Returned, setVariations st_abc_100 abc_variations)
  /\ Z.of_nat (length abc_variations) <= 5000
  /\ Z.of_nat (length abc_variations) <= totalPossible st_abc_100.
Proof.
  assert (generate 0 (fun _ => 0) st_abc_100
          = Some (Returned, setVariations st_abc_100 abc_variations)) as Hgen.
  { vm_compute. reflexivity. }
  split; [exact Hgen |].
  destruct (generate_count ref_host 0 (fun _ => 0) st_abc_100 _ Hgen)
    as ([_ Hcap] & Hspace & _).
  split; [exact Hcap | exact Hspace].
Defined.

(** X14. In enumeration mode the first variation stored is the source
    itself, unchanged, whatever the positions. *)
Theorem generate_first_variation :
  forall (H : Host) (fuel : nat) (rnd : nat -> Z) (st st' : AppState),
    totalPossible st <= 100000 ->
    generate fuel rnd st = Some (Returned, st') ->
    variations st' !! 0%nat = Some (email st).
Proof.
  intros H fuel rnd st st' Hsmall Hgen.
  apply generate_returned in Hgen
    as (want & picks & out & Hwant & Hpicks & _ & _ & Hout & ->).
  rewrite maskPicks_enumeration in Hpicks by done. injection Hpicks as <-.
  pose proof (totalPossible_pos st) as Hmax. simpl.
  replace (Z.min (totalPossible st) want)
    with (1 + (Z.min (totalPossible st) want - 1)) in Hout by lia.
  rewrite seqZ_app in Hout by lia. change (seqZ 0 1) with [0] in Hout.
  simpl in Hout. unfold render at 1 in Hout.
  rewrite flipCases_mask_0 in Hout. simpl in Hout.
  destruct (mapM _ _) as [rest |]; [| done]. by injection Hout as <-.
Qed.

Lemma generate_first_variation_witness :
  exists st',
    generate 0 (fun _ => 0) st_twice = Some (Returned, st')
    /\ variations st' !! 0%nat = Some (js "a@b.c").
Proof.
  eexists. split; [vm_compute; reflexivity |].
  apply (generate_first_variation ref_host 0 (fun _ => 0) st_twice).
  - vm_compute. discriminate.
  - vm_compute. reflexivity.
Defined.

(** X15. In enumeration mode a positive integer quantity that is at least
    the size of the space gives the whole space: the rendering of every mask
    of [0, 2^n) is among the variations stored, and there are 2^n of them. *)
Theorem generate_exhaustive :
  forall (H : Host) (fuel : nat) (rnd : nat -> Z) (st st' : AppState),
    totalPossible st <= 100000 ->
    positiveInteger (qty st) = true ->
    totalPossible st <= wantCount (qty st) ->
    generate fuel rnd st = Some (Returned, st') ->
    Z.of_nat (length (variations st')) = 2 ^ Z.of_nat (length (customPositions st))
    /\ forall mask,
         0 <= mask < 2 ^ Z.of_nat (length (customPositions st)) ->
         exists v,
           flipCases (email st) (customPositions st) mask = Ok v
           /\ v ∈ variations st'.
Proof.
  intros H fuel rnd st st' Hsmall Hqty Hall Hgen.
  pose proof (totalPossible_pow st) as Htot. unfold lettersCount in Htot.
  rewrite <- Htot.
  split; [rewrite (generate_returned_length fuel rnd st st') by done; lia |].
  intros mask Hmask.
  pose proof (generate_returned_email _ _ _ _ _ Hgen ltac:(done)) as Hemail.
  rewrite generate_valid, maskPicks_enumeration in Hgen by done.
  rewrite Z.min_l in Hgen by done.
  destruct (mapM (render st) _) as [out |] eqn:Hout; [| done].
  injection Hgen as <-. simpl.
  assert (mask ∈ seqZ 0 (totalPossible st)) as Hin.
  { apply elem_of_seqZ. lia. }
  revert out Hout.
  induction (seqZ 0 (totalPossible st)) as [| m picks IH]; intros out Hout.
  - by apply elem_of_nil in Hin.
  - simpl in Hout. destruct (render st m) as [v |] eqn:Hv; [| done].
    simpl in Hout. destruct (mapM (render st) picks) as [vs |]; [| done].
    injection Hout as <-. apply elem_of_cons in Hin as [-> | Hin].
    + exists v. split; [done | by left].
    + destruct (IH Hin vs eq_refl) as (v' & Hv' & Hin').
      exists v'. split; [done | by right].
Qed.

Lemma generate_exhaustive_witness :
  exists v,
    flipCases (js "a@b.c") [0; 2; 4]%nat 5 = Ok v /\ v ∈ abc_variations.
Proof.
  assert (generate 0 (fun _ => 0) st_abc_100
          = Some (Returned, setVariations st_abc_100 abc_variations)) as Hgen.
  { vm_compute. reflexivity. }
  assert (totalPossible st_abc_100 <= 100000) as Hsmall.
  { vm_compute. discriminate. }
  assert (totalPossible st_abc_100 <= wantCount (qty st_abc_100)) as Hall.
  { vm_compute. discriminate. }
  destruct (generate_exhaustive ref_host 0 (fun _ => 0) st_abc_100 _
              Hsmall eq_refl Hall Hgen) as [_ Hmasks].
  apply (Hmasks 5). vm_compute. split; [discriminate | reflexivity].
Defined.

(** *** [sampleUniqueBigInt]: what it returns, and in which order *)

Lemma first_draws_step (rnd : nat -> Z) (maxExclusive : Z) (i : nat)
    (js : list nat) (set : list Z) :
  first_draws rnd maxExclusive i js set ->
  exists js',
    first_draws rnd maxExclusive (S i) js'
      (Set_add (pickOf (rnd i) maxExclusive) set)
    /\ ((length set < length (Set_add (pickOf (rnd i) maxExclusive) set))%nat
        -> i ∈ js').
Proof.
  intros (Hsorted & Hset & Hfirst & Hall). unfold Set_add.
  destruct (decide (pickOf (rnd i) maxExclusive ∈ set)) as [Hp | Hp].
  - exists js. split; [| lia]. split_and!; [done | done | |].
    + intros j Hj. destruct (Hfirst j Hj) as [Hlt Hnew]. split; [lia | done].
    + intros i' Hi'. destruct (decide (i' = i)) as [-> | Hne]; [done |].
      apply Hall. lia.
  - exists (js ++ [i]).
    split; [| intros _; apply elem_of_app; right; apply list_elem_of_singleton; done].
    split_and!.
    + assert (Forall (fun j => (j < i)%nat) js) as Hbelow.
      { apply Forall_forall. intros j Hj. by apply Hfirst. }
      clear -Hsorted Hbelow.
      induction Hsorted as [| j js _ IH Hj]; simpl.
      * repeat constructor.
      * apply Forall_cons in Hbelow as [Hji Hbelow]. constructor.
        -- by apply IH.
        -- apply Forall_app. split; [done |]. by apply Forall_singleton.
    + by rewrite Hset, map_app.
    + intros j [Hj | Hj]%elem_of_app.
      * destruct (Hfirst j Hj) as [Hlt Hnew]. split; [lia | done].
      * apply list_elem_of_singleton in Hj as ->. split; [lia |].
        intros i' Hi' Heq. apply Hp. rewrite <- Heq. by apply Hall.
    + intros i' Hi'. apply elem_of_app.
      destruct (decide (i' = i)) as [-> | Hne].
      * right. by apply list_elem_of_singleton.
      * left. apply Hall. lia.
Qed.

Lemma sampleLoop_first_draws (rnd : nat -> Z) (maxExclusive k : Z) (fuel : nat) :
  forall (i : nat) (js : list nat) (set l : list Z),
    first_draws rnd maxExclusive i js set ->
    sampleLoop fuel rnd i set maxExclusive k = Some (Ok l) ->
    exists (n : nat) (js' : list nat),
      (i <= n <= i + fuel)%nat
      /\ first_draws rnd maxExclusive n js' l
      /\ (n = i /\ l = set /\ js' = js /\ k <= Z.of_nat (length set)
          \/ (i < n)%nat /\ (n - 1)%nat ∈ js' /\ Z.of_nat (length set) < k).
Proof.
  induction fuel as [| fuel IH]; intros i js set l Hinv; simpl.
  - destruct (Z.ltb_spec (Z.of_nat (length set)) k); [done |].
    intros [= <-]. exists i, js. split; [lia |]. split; [done |]. left. done.
  - destruct (Z.ltb_spec (Z.of_nat (length set)) k) as [Hlt | Hge].
    + destruct (maxExclusive =? 0); [done |].
      destruct (first_draws_step _ _ _ _ _ Hinv) as (js1 & Hinv1 & Hnew).
      intros Hl.
      destruct (IH _ _ _ _ Hinv1 Hl) as (n & js' & Hn & Hinv' & Hlast).
      exists n, js'. split; [lia |]. split; [done |]. right.
      destruct Hlast as [(-> & -> & -> & Hfull) | (Hlt' & Hin & _)].
      * split; [lia |]. replace (S i - 1)%nat with i by lia.
        split; [| done]. apply Hnew. unfold pickOf in *. lia.
      * split; [lia |]. split; done.
    + intros [= <-]. exists i, js. split; [lia |]. split; [done |]. left. done.
Qed.

(** X16. [sampleUniqueBigInt] returns the distinct candidates of the draws it
    has made, each once, in the order in which they first came up: what it
    returns is the list of the candidates of the draws j < n, n the number of
    draws made, at which a candidate came up for the first time, by
    increasing j. For a count k > 0 the loop stops with the draw that brings
    up the last of them; for k <= 0 it makes no draw. *)
Theorem sampleUniqueBigInt_order :
  forall (fuel : nat) (rnd : nat -> Z) (maxExclusive k : Z) (l : list Z),
    sampleUniqueBigInt fuel rnd maxExclusive k = Some (Ok l) ->
    exists (n : nat) (js : list nat),
      (n <= fuel)%nat
      /\ StronglySorted lt js
      /\ (forall j,
            j ∈ js <->
            (j < n)%nat
            /\ forall i, (i < j)%nat ->
                  pickOf (rnd i) maxExclusive <> pickOf (rnd j) maxExclusive)
      /\ l = map (fun j => pickOf (rnd j) maxExclusive) js
      /\ (0 < k -> (0 < n)%nat /\ (n - 1)%nat ∈ js)
      /\ (k <= 0 -> n = 0%nat).
Proof.
  intros fuel rnd maxExclusive k l Hl. unfold sampleUniqueBigInt in Hl.
  assert (first_draws rnd maxExclusive 0 [] []) as Hinv.
  { split_and!; [constructor | done | |].
    - by intros j Hj%elem_of_nil.
    - intros i' Hi'. lia. }
  destruct (sampleLoop_first_draws _ _ _ _ _ _ _ _ Hinv Hl)
    as (n & js & Hn & (Hsorted & Hmap & Hfirst & Hall) & Hlast).
  exists n, js. split; [lia |]. split; [done |]. split; [| split; [done |]].
  - intros j. split; [apply Hfirst |].
    intros [Hj Hnew]. pose proof (Hall j Hj) as Hin. rewrite Hmap in Hin.
    apply list_elem_of_fmap in Hin as (j' & Heq & Hj').
    destruct (lt_eq_lt_dec j j') as [[Hlt | ->] | Hgt]; [| done |].
    + destruct (Hfirst j' Hj') as [_ Hnew']. by destruct (Hnew' j Hlt).
    + by destruct (Hnew j' Hgt).
  - simpl in Hlast. split.
    + intros Hk. destruct Hlast as [(_ & _ & _ & Hfull) | (Hlt & Hin & _)];
        [lia | done].
    + intros Hk. destruct Hlast as [(-> & _) | (_ & _ & Hlt)]; [done | lia].
Qed.

Lemma sampleUniqueBigInt_order_witness :
  exists (n : nat) (js : list nat),
    StronglySorted lt js
    /\ [5; 1; 3] = map (fun j => pickOf (nth j [5; 13; 1; 5; 9; 3] 0) 8) js
    /\ (n - 1)%nat ∈ js.
Proof.
  destruct (sampleUniqueBigInt_order 6
              (fun i => nth i [5; 13; 1; 5; 9; 3] 0) 8 3 [5; 1; 3])
    as (n & js & _ & Hsorted & _ & Hmap & Hlast & _).
  - vm_compute. reflexivity.
  - exists n, js. split; [exact Hsorted |]. split; [exact Hmap |].
    apply Hlast. lia.
Defined.

(** *** [totalDisplay] *)

Lemma uint_units_digits (d : Decimal.uint) :
  Forall (fun c => isDigit c = true) (uint_units d).
Proof. induction d; simpl; constructor; done. Qed.

Lemma uint_units_value_acc (d : Decimal.uint) :
  forall acc,
    fold_left (fun acc d => 10 * acc + (d - 48)) (uint_units d) (Z.pos acc)
    = Z.pos (Pos.of_uint_acc d acc).
Proof.
  induction d; intros acc; simpl; [done | ..];
    rewrite <- IHd; f_equal; lia.
Qed.

Lemma uint_units_value (d : Decimal.uint) :
  decimal (uint_units d) = Z.of_N (Pos.of_uint d).
Proof.
  unfold decimal. destruct d; simpl; try apply uint_units_value_acc.
  - done.
  - induction d; simpl; try apply uint_units_value_acc; done.
Qed.

Lemma filter_replaceSeparators (rest : jsstring) :
  forall prev,
    filter (fun c => c <> 44) (replaceSeparators prev rest)
    = filter (fun c => c <> 44) rest.
Proof.
  induction rest as [| c rest IH]; intros prev; simpl.
  - by destruct (_ && _).
  - destruct (notWordBoundary prev (c :: rest) && _); simpl.
    + rewrite filter_cons_False by (intros Hne; by apply Hne).
      destruct (decide (c = 44)) as [-> | Hc].
      * rewrite !filter_cons_False by (intros Hne; by apply Hne). apply IH.
      * rewrite !filter_cons_True by done. f_equal. apply IH.
    + destruct (decide (c = 44)) as [-> | Hc].
      * rewrite !filter_cons_False by (intros Hne; by apply Hne). apply IH.
      * rewrite !filter_cons_True by done. f_equal. apply IH.
Qed.

Lemma filter_digits (s : jsstring) :
  Forall (fun c => isDigit c = true) s -> filter (fun c => c <> 44) s = s.
Proof.
  induction 1 as [| c s Hc _ IH]; [done |].
  rewrite filter_cons_True by (unfold isDigit in Hc; lia). by rewrite IH.
Qed.

Lemma totalPossible_digits `{H : Host} (st : AppState) :
  Forall (fun c => isDigit c = true) (BigInt_toString (totalPossible st))
  /\ decimal (BigInt_toString (totalPossible st)) = totalPossible st.
Proof.
  pose proof (totalPossible_pos st) as Hpos.
  destruct (totalPossible st) as [| p | p]; [lia | | lia]. simpl.
  split; [apply uint_units_digits |].
  by rewrite uint_units_value, DecimalPos.Unsigned.of_to.
Qed.

(** X17. The formatted total loses nothing: with its commas taken out,
    [totalDisplay] is the decimal numeral of [totalPossible], digits only,
    and reads back as [totalPossible] exactly, however large. *)
Theorem totalDisplay_lossless :
  forall (H : Host) (st : AppState),
    filter (fun c => c <> 44) (totalDisplay st)
    = BigInt_toString (totalPossible st)
    /\ Forall (fun c => isDigit c = true)
         (filter (fun c => c <> 44) (totalDisplay st))
    /\ decimal (filter (fun c => c <> 44) (totalDisplay st)) = totalPossible st.
Proof.
  intros H st. destruct (totalPossible_digits st) as [Hd Hv].
  assert (filter (fun c => c <> 44) (totalDisplay st)
          = BigInt_toString (totalPossible st)) as ->.
  { unfold totalDisplay. cbv zeta.
    by rewrite filter_replaceSeparators, filter_digits. }
  done.
Qed.

Lemma groupsOfThree_digits (n : nat) :
  forall rest,
    (length rest <= n)%nat ->
    Forall (fun c => isDigit c = true) rest ->
    groupsOfThree rest
    = (0 <? length rest)%nat && (length rest mod 3 =? 0)%nat.
Proof.
  induction n as [| n IH]; intros rest Hlen Hd.
  - by destruct rest; [| simpl in Hlen; lia].
  - destruct rest as [| d1 [| d2 [| d3 rest]]]; try done.
    apply Forall_cons in Hd as [H1 Hd]. apply Forall_cons in Hd as [H2 Hd].
    apply Forall_cons in Hd as [H3 Hd].
    cbn [groupsOfThree]. rewrite H1, H2, H3. cbn [andb].
    rewrite IH by (simpl in Hlen; lia || done).
    replace (length (d1 :: d2 :: d3 :: rest)) with (length rest + 1 * 3)%nat
      by (simpl; lia).
    rewrite Nat.Div0.mod_add.
    destruct rest as [| c rest]; [done |].
    apply Forall_cons in Hd as [Hc _]. simpl startsWithDigit. rewrite Hc.
    replace (0 <? length (c :: rest) + 1 * 3)%nat with true
      by (symmetry; apply Nat.ltb_lt; simpl; lia).
    done.
Qed.

Lemma isDigit_word (c : codeunit) : isDigit c = true -> isWordChar c = true.
Proof. unfold isWordChar. by intros ->. Qed.

Lemma replaceSeparators_digits (rest : jsstring) :
  forall (prev : option codeunit) (n : nat),
    Forall (fun c => isDigit c = true) rest ->
    match prev with
    | None => n = 0%nat
    | Some p => isDigit p = true /\ (0 < n)%nat
    end ->
    replaceSeparators prev rest
    = concat (imap (fun j c => grouped_cell (n + length rest) (n + j) c) rest).
Proof.
  induction rest as [| c rest IH]; intros prev n Hd Hprev.
  - simpl. by rewrite andb_false_r.
  - pose proof (groupsOfThree_digits _ (c :: rest) (le_n _) Hd) as Hg.
    apply Forall_cons in Hd as [Hc Hd].
    cbn [replaceSeparators imap concat]. rewrite Hg.
    assert (notWordBoundary prev (c :: rest) = (0 <? n)%nat) as ->.
    { unfold notWordBoundary. rewrite (isDigit_word c Hc).
      destruct prev as [p |].
      - destruct Hprev as [Hp Hn]. rewrite (isDigit_word p Hp).
        symmetry. by apply Nat.ltb_lt.
      - by subst n. }
    rewrite (IH (Some c) (S n)) by (done || (split; [done | lia])).
    assert (grouped_cell (n + length (c :: rest)) (n + 0) c
            = (if (0 <? n)%nat && (length (c :: rest) mod 3 =? 0)%nat
               then [44] else []) ++ [c]) as ->.
    { unfold grouped_cell. rewrite Nat.add_0_r.
      replace (n + length (c :: rest) - n)%nat with (length (c :: rest)) by lia.
      by destruct ((0 <? n)%nat && (length (c :: rest) mod 3 =? 0)%nat). }
    rewrite <- app_assoc. cbn [app]. do 3 f_equal.
    apply imap_ext. intros j x _. simpl. f_equal; lia.
Qed.

(** X18. The formatted total is the decimal numeral of [totalPossible] with
    a comma put before the digit at index i exactly when i > 0 and the number
    of digits from i to the end is a multiple of three: groups of three from
    the right, no comma in front, none in a total below 1000. *)
Theorem totalDisplay_groups :
  forall (H : Host) (st : AppState),
    let digits := BigInt_toString (totalPossible st) in
    totalDisplay st
    = concat (imap (fun i c =>
                      if (0 <? i)%nat && ((length digits - i) mod 3 =? 0)%nat
                      then [44; c] else [c]) digits)
    /\ (totalPossible st < 1000 -> totalDisplay st = digits).
Proof.
  intros H st digits.
  destruct (totalPossible_digits st) as [Hd Hv]. fold digits in Hd, Hv.
  assert (totalDisplay st
          = concat (imap (fun i c => grouped_cell (length digits) i c) digits))
    as Hshape.
  { unfold totalDisplay. cbv zeta. fold digits.
    by rewrite (replaceSeparators_digits digits None 0%nat). }
  split; [exact Hshape |].
  intros Hsmall. unfold totalDisplay, digits. cbv zeta.
  rewrite totalPossible_pow in Hsmall |- *.
  assert (lettersCount st < 10)%nat as Hn.
  { destruct (le_lt_dec 10 (lettersCount st)) as [Hge | Hlt]; [| done].
    assert (10 <= Z.of_nat (lettersCount st)) as Hge' by lia.
    pose proof (Z.pow_le_mono_r 2 10 _ eq_refl Hge') as Hpow.
    change (2 ^ 10) with 1024 in Hpow. lia. }
  clear Hd Hv Hshape Hsmall. revert Hn.
  generalize (lettersCount st) as n. intros n Hn.
  destruct n as [| [| [| [| [| [| [| [| [| [| n]]]]]]]]]];
    try (vm_compute; reflexivity).
  lia.
Qed.

(** *** The tiles of the page *)

(** X19. With the custom mode off, or with a blank custom index list, the
    two tiles of the page agree: TOTAL POSSIBLE is 2 to the power LETTERS. *)
Theorem totalPossible_of_letters :
  forall (H : Host) (st : AppState),
    useCustom st = false
    \/ Forall (fun c => isSeparator c || isWhiteSpace c = true)
         (customIndexes st) ->
    totalPossible st = 2 ^ Z.of_nat (lettersTile st).
Proof.
  intros H st Hdefault. rewrite totalPossible_pow.
  unfold lettersCount, lettersTile. by rewrite customPositions_blank.
Qed.

Lemma totalPossible_of_letters_witness :
  totalPossible initialState = 2 ^ Z.of_nat (lettersTile initialState).
Proof. apply (totalPossible_of_letters ref_host). left. reflexivity. Defined.

(** *** The text that is copied and downloaded *)

Lemma toggleA_line_feed (c : codeunit) : c <> 10 -> toggleA c <> 10.
Proof. unfold toggleA, isLower, isUpper. repeat case_match; lia. Qed.

Lemma flipLoopA_line_feed (positions : list nat) (mask : Z) (s : jsstring) :
  Forall (fun c => c <> 10) s ->
  Forall (fun c => c <> 10) (flipLoopA s positions 0 mask).
Proof.
  intros Hs. apply Forall_lookup. intros i c'.
  rewrite flipLoopA_lookup.
  destruct (s !! i) as [c |] eqn:Hc; [| done].
  pose proof (Forall_lookup_1 _ _ _ _ Hs Hc) as Hne.
  destruct (flips positions 0 mask i); simpl; intros [= <-]; [| done].
  by apply toggleA_line_feed.
Qed.

Lemma Array_join_lines (m : nat) (arr : list jsstring) :
  arr <> [] ->
  Forall (fun v => length v = m /\ Forall (fun c => c <> 10) v) arr ->
  length (Array_join [10] arr) = (length arr * m + (length arr - 1))%nat
  /\ length (filter (fun c => c = 10) (Array_join [10] arr))
     = (length arr - 1)%nat.
Proof.
  intros Hne Harr.
  assert (forall v, Forall (fun c => c <> 10) v ->
                    filter (fun c => c = 10) v = []) as Hnone.
  { intros v Hv. induction Hv as [| c v Hc _ IH]; [done |].
    by rewrite filter_cons_False. }
  induction arr as [| v arr IH]; [done |]. clear Hne.
  apply Forall_cons in Harr as [[Hlen Hv] Harr].
  destruct arr as [| v' arr].
  - simpl. rewrite (Hnone v Hv). simpl. lia.
  - destruct (IH ltac:(done) Harr) as [IHlen IHlf].
    change (Array_join [10] (v :: v' :: arr))
      with (v ++ [10] ++ Array_join [10] (v' :: arr)).
    rewrite !length_app, !filter_app, !length_app, IHlen, IHlf, Hlen.
    rewrite (Hnone v Hv). simpl. lia.
Qed.

(** Where the pieces of a joined text are, when they all have [m] units. *)
Lemma Array_join_at (m : nat) (arr : list jsstring) :
  Forall (fun v => length v = m) arr ->
  forall (i : nat) (v : jsstring),
    arr !! i = Some v ->
    take m (drop (i * S m) (Array_join [10] arr)) = v
    /\ ((S i < length arr)%nat ->
        Array_join [10] arr !! (i * S m + m)%nat = Some 10).
Proof.
  induction 1 as [| v0 arr Hlen Harr IH]; intros i v Hi; [done |].
  destruct arr as [| v1 arr].
  - destruct i as [| i]; [| done]. injection Hi as <-. simpl.
    split; [by apply take_ge; lia | lia].
  - change (Array_join [10] (v0 :: v1 :: arr))
      with (v0 ++ [10] ++ Array_join [10] (v1 :: arr)).
    destruct i as [| i].
    + injection Hi as <-. simpl. split.
      * by apply take_app_length'.
      * intros _. by apply list_lookup_middle.
    + simpl in Hi. destruct (IH i v Hi) as [IHtake IHlf].
      assert (length (v0 ++ [10]) = S m) as Hhead.
      { rewrite length_app. simpl. lia. }
      rewrite app_assoc.
      replace (S i * S m)%nat with (S m + i * S m)%nat by lia.
      split.
      * rewrite <- drop_drop, drop_app_length' by done. exact IHtake.
      * intros Hlt. rewrite lookup_app_r by (rewrite Hhead; lia).
        rewrite Hhead.
        replace (S m + i * S m + m - S m)%nat with (i * S m + m)%nat by lia.
        apply IHlf. simpl in Hlt |- *. lia.
Qed.

(** X20. After a run that returns, on a source of m units without a line
    feed and through ASCII positions, the text handed to the clipboard and to
    the download holds one variation per line: the i-th of the n variations
    stored occupies the m units from offset i * (m + 1), a line feed follows
    it unless it is the last, and the text holds nothing else: its length is
    n * m + (n - 1), and it has n - 1 line feeds in all. *)
Theorem exportText_lines :
  forall (H : Host) (fuel : nat) (rnd : nat -> Z) (st st' : AppState),
    useCustom st = false
    \/ Forall (unit_at isAscii (email st)) (customPositions st) ->
    Forall (fun c => c <> 10) (email st) ->
    generate fuel rnd st = Some (Returned, st') ->
    let n := length (variations st') in
    let m := length (email st) in
    (0 < n)%nat
    /\ length (exportText st') = (n * m + (n - 1))%nat
    /\ length (filter (fun c => c = 10) (exportText st')) = (n - 1)%nat
    /\ forall (i : nat) (v : jsstring),
         variations st' !! i = Some v ->
         length v = m
         /\ take m (drop (i * S m) (exportText st')) = v
         /\ ((S i < n)%nat -> exportText st' !! (i * S m + m)%nat = Some 10).
Proof.
  intros H fuel rnd st st' Hpos Hlf Hgen n m.
  assert (Forall (unit_at isAscii (email st)) (customPositions st)) as Hascii.
  { destruct Hpos as [Hdefault | Hcustom]; [| done].
    destruct (default_positions st Hdefault) as [_ Hlet].
    eapply Forall_impl; [exact Hlet |]. intros idx.
    apply unit_at_weaken, isLetter_ascii. }
  apply generate_returned in Hgen
    as (want & picks & out & Hwant & Hpicks & _ & _ & Hout & ->).
  pose proof (picks_rendered_length fuel rnd st want picks out
                ltac:(lia) Hpicks Hout) as Hcount.
  pose proof (totalPossible_pos st) as Hmax.
  unfold n, m, exportText. simpl.
  assert (0 < length out)%nat as Hn by lia.
  assert (Forall (fun v => length v = length (email st)
                           /\ Forall (fun c => c <> 10) v) out) as Hshape.
  { rewrite (mapM_total _ (flipLoopA (email st) (customPositions st) 0)) in Hout
      by (intros; by apply render_ascii).
    injection Hout as <-. apply Forall_fmap, Forall_forall. intros mask _. simpl.
    split; [apply length_flipLoopA | by apply flipLoopA_line_feed]. }
  destruct (Array_join_lines (length (email st)) out) as [Hlen Hcountlf];
    [intros ->; simpl in Hn; lia | done |].
  split; [done |]. split; [done |]. split; [done |].
  intros i v Hi.
  assert (Forall (fun v => length v = length (email st)) out) as Hlens.
  { eapply Forall_impl; [exact Hshape |]. by intros v' [? _]. }
  split; [exact (Forall_lookup_1 _ _ _ _ Hlens Hi) |].
  by apply Array_join_at.
Qed.

Lemma exportText_lines_witness :
  take 5 (drop 12 (exportText (setVariations st_abc_100 abc_variations)))
  = js "a@B.c"
  /\ exportText (setVariations st_abc_100 abc_variations) !! 17%nat = Some 10.
Proof.
  assert (Forall (fun c => c <> 10) (email st_abc_100)) as Hlf.
  { repeat constructor; discriminate. }
  assert (generate 0 (fun _ => 0) st_abc_100
          = Some (Returned, setVariations st_abc_100 abc_variations)) as Hgen.
  { vm_compute. reflexivity. }
  destruct (exportText_lines ref_host 0 (fun _ => 0) st_abc_100 _
              (or_introl eq_refl) Hlf Hgen) as (_ & _ & _ & Hat).
  destruct (Hat 2%nat (js "a@B.c") eq_refl) as (_ & Htake & Hfeed).
  split; [exact Htake |]. apply Hfeed. vm_compute. lia.
Defined.
